(** * Filter-and-bin mapmaking: the notebook's computational core

    A shallow embedding of the mapmaking cells of
    [filter_and_bin_mapmaking.ipynb] (the grid definition, the class
    [SingleMapBinner], the run of the binner over the frames, the derived
    map and the module [Calibrate]), together with the properties stated
    about them.

    Number model.  The notebook computes in binary64.  Here every float is an
    exact rational ([Qc], canonical fractions, so that [=] is equality of
    values), and the properties say which quantity the code computes: a
    formula, a count, a sum, a mean.  The one place where the IEEE special
    values matter to such a property, the element-wise division
    [binner.data / binner.hits], is modelled with an explicit result type
    that has infinities and not-a-number.  Where a property depends on the
    rounding of the sums, the order of ingestion, the class is modelled a
    second time with the rounding of every operation written out (module
    [Binary64]).

    External collaborators.  [numpy] and [spt3g.core] are libraries the
    notebook calls.  The few functions used ([np.linspace], [np.histogram2d],
    broadcasting [+], [np.cos], the unit constants [G3Units]) are modelled
    after their documented behaviour, or taken as parameters where the
    properties do not depend on their values. *)

From Stdlib Require Import QArith Qcanon ZArith Lia.
From stdpp Require Import base numbers list strings gmap.

Local Open Scope Qc_scope.

(** ** Numbers *)

Definition Qc_of_nat (n : nat) : Qc := Qc_of_Z (Z.of_nat n).

(** Decimal literals of the notebook, [n / d]. *)
Definition lit (n : Z) (d : positive) : Qc := Q2Qc (n # d).

(** Python's [int(x)] on a float: truncation toward zero. *)
Definition int (x : Qc) : Z := Z.quot (Qnum x) (Z.pos (Qden x)).

(** ** Exceptions *)

Inductive exn :=
| KeyError (key : string)
| ValueError
| TypeError
| RuntimeError
| AttributeError.

Inductive result (A : Type) :=
| Ok (a : A)
| Err (e : exn).
Arguments Ok {A} a.
Arguments Err {A} e.

(** A raised exception ends the computation; [x ← r; k] is sequencing. *)
Global Instance result_bind : MBind result := λ A B k r,
  match r with
  | Ok a => k a
  | Err e => Err e
  end.

(** [d[key]] on a Python mapping. *)
Definition getitem {V} (d : gmap string V) (key : string) : result V :=
  match d !! key with
  | Some v => Ok v
  | None => Err (KeyError key)
  end.

(** ** spt3g.core.G3Units

    The unit constants the notebook multiplies and divides by.  Their values
    belong to the library; all of them are positive numbers. *)

Record G3Units := {
  rad : Qp;
  deg : Qp;
  degrees : Qp;
  arcmin : Qp;
  arcsec : Qp;
  rahour : Qp;
  raminute : Qp;
  rasecond : Qp;
  mK : Qp
}.

(** ** numpy *)

(** [np.linspace(start, stop, num)] with the default [endpoint=True]:
    [num] evenly spaced samples, [arange(num) * step + start] with
    [step = (stop - start) / (num - 1)], and the last sample overwritten
    with [stop]. *)
Definition linspace (start stop : Qc) (num : nat) : list Qc :=
  match num with
  | O => []
  | S O => [start]
  | S (S _ as div) =>
      let step := (stop - start) / Qc_of_nat div in
      ((λ i, start + Qc_of_nat i * step) <$> seq 0 div) ++ [stop]
  end.

(** [a + c] of a 1-d array and a scalar. *)
Definition add_scalar (a : list Qc) (c : Qc) : list Qc := (λ v, v + c) <$> a.

(** [a - c] of a 1-d array and a scalar. *)
Definition sub_scalar (a : list Qc) (c : Qc) : list Qc := (λ v, v - c) <$> a.

(** [a + b] of two 1-d arrays: element-wise when the lengths agree, a
    length-one operand is stretched, anything else is a shape error. *)
Definition add_arrays (a b : list Qc) : result (list Qc) :=
  if decide (length a = length b) then Ok (zip_with Qcplus a b)
  else match a, b with
       | [v], _ => Ok ((λ w, v + w) <$> b)
       | _, [w] => Ok ((λ v, v + w) <$> a)
       | _, _ => Err ValueError
       end.

(** A 2-d array, as a list of rows. *)
Abbreviation array2 := (list (list Qc)).

(** [np.zeros((n, m), dtype=float)] *)
Definition zeros (n m : nat) : array2 := replicate n (replicate m 0).

(** [a[i, j]] where the array has such an element. *)
Definition cell (a : array2) (i j : nat) : option Qc :=
  a !! i ≫= λ row, row !! j.

(** [a[i, j]]; the properties only read inside the array. *)
Definition get2 (a : array2) (i j : nat) : Qc := default 0 (cell a i j).

Definition shape (a : array2) : list nat := length <$> a.

(** [a += b] for equally shaped 2-d arrays.  (numpy would also accept a
    right operand that broadcasts to the shape of [a]; the histograms added
    below always have the shape of the accumulator.) *)
Definition iadd (a b : array2) : result array2 :=
  if decide (shape a = shape b) then Ok (zip_with (zip_with Qcplus) a b)
  else Err ValueError.

(** [np.searchsorted(edges, v, side='right')] for non-decreasing [edges]:
    the number of edges that are [≤ v]. *)
Fixpoint searchsorted_right (edges : list Qc) (v : Qc) : nat :=
  match edges with
  | [] => 0
  | e :: edges' =>
      if decide (e ≤ v) then S (searchsorted_right edges' v) else 0
  end.

(** The bin of [v] in one dimension of [np.histogramdd]: the right-sided
    search, the values on the rightmost edge moved into the last bin, and
    the outliers (below the first edge, above the last) dropped. *)
Definition bin_index (edges : list Qc) (v : Qc) : option nat :=
  let k := searchsorted_right edges v in
  let k := if decide (last edges = Some v) then pred k else k in
  if decide (1 ≤ k ∧ k < length edges)%nat then Some (pred k) else None.

(** [bins] must be monotonically increasing when an array. *)
Fixpoint monotonic (edges : list Qc) : bool :=
  match edges with
  | a :: (b :: _) as rest => bool_decide (a ≤ b) && monotonic rest
  | _ => true
  end.

(** [h[i, j] += w] *)
Definition bump (h : array2) (i j : nat) (w : Qc) : array2 :=
  alter (alter (λ v, v + w) j) i h.

(** The accumulation of [np.bincount] over the samples, in sample order. *)
Fixpoint bincount2 (edges_y edges_x : list Qc) (yxw : list (Qc * Qc * Qc))
    (h : array2) : array2 :=
  match yxw with
  | [] => h
  | (y, x, w) :: rest =>
      let h' := match bin_index edges_y y, bin_index edges_x x with
                | Some i, Some j => bump h i j w
                | _, _ => h
                end in
      bincount2 edges_y edges_x rest h'
  end.

(** [np.histogram2d(y, x, bins=[edges_y, edges_x], weights=weights)[0]];
    without weights every sample counts [1]. *)
Definition histogram2d (y x : list Qc) (edges_y edges_x : list Qc)
    (weights : option (list Qc)) : result array2 :=
  if decide (length x ≠ length y) then Err ValueError
  else if negb (monotonic edges_y && monotonic edges_x) then Err ValueError
  else
    w ← match weights with
        | Some w =>
            (* [np.bincount] returns zeros for an empty sample before it
               looks at the weights *)
            if decide (y = []) then Ok []
            else if decide (length w = length y) then Ok w
            else Err ValueError
        | None => Ok (replicate (length y) 1)
        end;
    Ok (bincount2 edges_y edges_x (zip (zip y x) w)
          (zeros (pred (length edges_y)) (pred (length edges_x)))).

(** [np.sum(a)] *)
Definition sum (a : list Qc) : Qc := foldr Qcplus 0 a.

(** The value of one float division, where IEEE's special values show:
    [x / 0] is an infinity with the sign of [x], and [0 / 0] is
    not-a-number (numpy warns and goes on). *)
Inductive float :=
| Finite (q : Qc)
| Inf (negative : bool)
| NaN.

Definition true_divide (a b : Qc) : float :=
  if decide (b = 0) then
    if decide (a = 0) then NaN else Inf (bool_decide (a < 0))
  else Finite (a / b).

(** Division of such a value by a positive constant. *)
Definition divide_by (x : float) (u : Qp) : float :=
  match x with
  | Finite q => Finite (q / Qp_to_Qc u)
  | Inf s => Inf s
  | NaN => NaN
  end.

(** ** spt3g.core frames

    A frame is a dict from keys to frame objects.  The notebook's data has
    two kinds of objects under the keys the code reads: a timestream
    ([BoresightRa], [BoresightDec]) and a map from detector names to
    timestreams ([RawTimestreams], [CalTimestreams]).  A timestream map
    under a boresight key is outside this data model: the code would go on
    with a 2-d array and fail in the histogram; here the call ends with
    [TypeError] where the key is read. *)

Inductive G3FrameObject :=
| G3Timestream (samples : list Qc)
| G3TimestreamMap (m : gmap string (list Qc)).

Abbreviation G3Frame := (gmap string G3FrameObject).

(** [np.asarray(frame[key])] for a timestream. *)
Definition asarray (frame : G3Frame) (key : string) : result (list Qc) :=
  obj ← getitem frame key;
  match obj with
  | G3Timestream v => Ok v
  | G3TimestreamMap _ => Err TypeError
  end.

(** ** The notebook *)

(** The state of a [SingleMapBinner] object. *)
Record SingleMapBinner := {
  det : string;
  timestreams : string;
  data : array2;
  hits : array2
}.

Section Notebook.
(** [from spt3g.core import G3Units as U] *)
Variable U : G3Units.
(** [np.cos] *)
Variable cos : Qc → Qc.
(** [calframe["DetectorXOffset"]], [calframe["DetectorYOffset"]] *)
Variables xoff yoff : gmap string Qc.

(** *** The pixel grid *)

(** center of the sky map *)
Definition ra0 : Qc :=
  lit 8 1 * Qp_to_Qc (rahour U) + lit 59 1 * Qp_to_Qc (raminute U)
  + lit 48 10 * Qp_to_Qc (rasecond U).
Definition dec0 : Qc :=
  - (lit 47 1 * Qp_to_Qc (degrees U) + lit 30 1 * Qp_to_Qc (arcmin U)
     + lit 36 1 * Qp_to_Qc (arcsec U)).

(** map dimensions *)
Definition xlen : Qc := lit 5 10 * Qp_to_Qc (deg U).
Definition ylen : Qc := lit 5 10 * Qp_to_Qc (deg U).

(** pixel resolution *)
Definition res : Qc := lit 5 10 * Qp_to_Qc (arcmin U).

(** number of bins along each axis; the quotient of two positive numbers
    truncates to a non-negative integer (lemma [int_nonneg]) *)
Definition nx : nat := Z.to_nat (int (xlen / res)).
Definition ny : nat := Z.to_nat (int (ylen / res)).

(** [np.linspace(-len / 2, len / 2, n + 1) + center] *)
Definition edges (len center : Qc) (n : nat) : list Qc :=
  add_scalar (linspace (- len / lit 2 1) (len / lit 2 1) (n + 1)) center.

(** bin edges *)
Definition ra_edges : list Qc := edges xlen ra0 nx.
Definition dec_edges : list Qc := edges ylen dec0 ny.

(** *** SingleMapBinner *)

Definition __init__ (det timestreams : string) : SingleMapBinner :=
  {| det := det;
     timestreams := timestreams;
     (* array for storing the binned timestream data *)
     data := zeros ny nx;
     (* array for storing the number of times each pixel is "hit" *)
     hits := zeros ny nx |}.

(** [timestreams="CalTimestreams"] *)
Definition default_timestreams : string := "CalTimestreams".

(** calculate offset pointing *)
Definition offset_pointing (det : string) (frame : G3Frame)
    : result (list Qc * list Qc) :=
  dy ← getitem yoff det;
  dec ← asarray frame "BoresightDec";
  let y := sub_scalar dec dy in
  xo ← getitem xoff det;
  let dx := (λ v, xo / cos (v / Qp_to_Qc (rad U))) <$> y in
  ra ← asarray frame "BoresightRa";
  x ← add_arrays ra dx;
  Ok (y, x).

Definition __call__ (self : SingleMapBinner) (frame : G3Frame)
    : result SingleMapBinner :=
  match frame !! timestreams self with
  | None => Ok self
  | Some (G3Timestream _) => Ok self (* no detector name is in a timestream *)
  | Some (G3TimestreamMap tsmap) =>
      match tsmap !! det self with
      | None => Ok self
      | Some ts =>
          '(y, x) ← offset_pointing (det self) frame;
          (* update data and hits, in-place *)
          weighted ← histogram2d y x dec_edges ra_edges (Some ts);
          data' ← iadd (data self) weighted;
          counts ← histogram2d y x dec_edges ra_edges None;
          hits' ← iadd (hits self) counts;
          Ok {| det := det self; timestreams := timestreams self;
                data := data'; hits := hits' |}
      end
  end.

(** The pipeline feeds the frames to the module one after the other; an
    exception stops the run. *)
Fixpoint Run (binner : SingleMapBinner) (frames : list G3Frame)
    : result SingleMapBinner :=
  match frames with
  | [] => Ok binner
  | frame :: rest => binner' ← __call__ binner frame; Run binner' rest
  end.

(** [m = binner.data / binner.hits / U.mK] *)
Definition sky_map (binner : SingleMapBinner) : list (list float) :=
  zip_with (zip_with (λ d h, divide_by (true_divide d h) (mK U)))
    (data binner) (hits binner).
End Notebook.

(** ** Notions used to state the properties *)

Definition strictly_increasing (l : list Qc) : Prop :=
  ∀ i j a b, (i < j)%nat → l !! i = Some a → l !! j = Some b → a < b.

(** Bin [i] of [edges] as an interval: closed on the left, open on the
    right, except the last bin, which includes the rightmost edge. *)
Definition in_bin (edges : list Qc) (i : nat) (v : Qc) : bool :=
  match edges !! i, edges !! S i with
  | Some lo, Some hi =>
      bool_decide (lo ≤ v)
      && (bool_decide (v < hi)
          || bool_decide (v = hi) && bool_decide (S (S i) = length edges))
  | _, _ => false
  end.

(** Outside the range of the edges: below the first or above the last. *)
Definition out_of_range (edges : list Qc) (v : Qc) : bool :=
  match head edges, last edges with
  | Some lo, Some hi => bool_decide (v < lo) || bool_decide (hi < v)
  | _, _ => true
  end.

(** The sample [(y, x, w)] is one that the histogram adds to cell
    [(i, j)]. *)
Definition lands_in (edges_y edges_x : list Qc) (i j : nat)
    (s : Qc * Qc * Qc) : Prop :=
  bin_index edges_y s.1.1 = Some i ∧ bin_index edges_x s.1.2 = Some j.

Section Pixels.
Variable U : G3Units.
Variable cos : Qc → Qc.
Variables xoff yoff : gmap string Qc.

(** The samples [(y, x, signal)] of the target detector that a frame
    brings: its timestream against the reconstructed pointing.  A frame
    without the timestream field or without the detector brings none. *)
Definition frame_samples (det timestreams : string) (frame : G3Frame)
    : list (Qc * Qc * Qc) :=
  match frame !! timestreams with
  | Some (G3TimestreamMap tsmap) =>
      match tsmap !! det, offset_pointing U cos xoff yoff det frame with
      | Some ts, Ok (y, x) => zip (zip y x) ts
      | _, _ => []
      end
  | _ => []
  end.

(** A frame as the data model has it: when it carries a timestream of the
    target detector, it has the two boresight timestreams, all three of the
    same length, and the detector has its two offsets. *)
Definition well_formed (det timestreams : string) (frame : G3Frame) : Prop :=
  frame !! timestreams = None
  ∨ ∃ tsmap,
      frame !! timestreams = Some (G3TimestreamMap tsmap)
      ∧ (tsmap !! det = None
         ∨ ∃ ts dec ra,
             tsmap !! det = Some ts
             ∧ frame !! "BoresightDec" = Some (G3Timestream dec)
             ∧ frame !! "BoresightRa" = Some (G3Timestream ra)
             ∧ length dec = length ts ∧ length ra = length ts
             ∧ is_Some (xoff !! det) ∧ is_Some (yoff !! det)).

(** What a frame adds to [data] and to [hits]: nothing when it is skipped,
    else the weighted and the unweighted histogram of its samples.  It
    depends on the frame and on the configuration of the binner, not on what
    the binner has accumulated. *)
Definition increments (det timestreams : string) (frame : G3Frame)
    : result (option (array2 * array2)) :=
  match frame !! timestreams with
  | None => Ok None
  | Some (G3Timestream _) => Ok None
  | Some (G3TimestreamMap tsmap) =>
      match tsmap !! det with
      | None => Ok None
      | Some ts =>
          '(y, x) ← offset_pointing U cos xoff yoff det frame;
          weighted ← histogram2d y x (dec_edges U) (ra_edges U) (Some ts);
          counts ← histogram2d y x (dec_edges U) (ra_edges U) None;
          Ok (Some (weighted, counts))
      end
  end.

(** The signal samples, over all the frames, whose pointing lies in
    pixel [(i, j)] of the grid. *)
Definition pixel_samples (det timestreams : string) (frames : list G3Frame)
    (i j : nat) : list Qc :=
  snd <$> filter (λ s, in_bin (dec_edges U) i s.1.1
                       && in_bin (ra_edges U) j s.1.2)
            (frames ≫= frame_samples det timestreams).
End Pixels.

(** Adding the increments of a frame to the binner. *)
Definition accumulate (self : SingleMapBinner)
    (inc : option (array2 * array2)) : result SingleMapBinner :=
  match inc with
  | None => Ok self
  | Some (weighted, counts) =>
      data' ← iadd (data self) weighted;
      hits' ← iadd (hits self) counts;
      Ok {| det := det self; timestreams := timestreams self;
            data := data'; hits := hits' |}
  end.

(** The arithmetic mean; a mean of no samples does not exist. *)
Definition mean (samples : list Qc) : option Qc :=
  match samples with
  | [] => None
  | _ => Some (sum samples / Qc_of_nat (length samples))
  end.

(** ** The filters

    The notebook leaves [MeanFilter] and [MaskedMeanFilter] as exercises;
    there is no code for them. *)

Module Filters.
Section Filters.
(** The angular distance between two sky positions [(y, x)]. *)
Variable distance : Qc * Qc → Qc * Qc → Qc.

(** Modelled from the spec: MeanFilter, the unmasked form of [filter]:
    subtract the arithmetic mean of [samples] from every element. *)
Definition MeanFilter (samples : list Qc) : list Qc :=
  match mean samples with
  | Some m => sub_scalar samples m
  | None => samples
  end.

(** Modelled from the spec: MeanFilter on a record, per detector: the mean
    of a detector's samples in the record is subtracted from that
    detector's samples; nothing is carried from record to record. *)
Definition MeanFilterRecord (tsmap : gmap string (list Qc))
    : gmap string (list Qc) :=
  MeanFilter <$> tsmap.

(** Modelled from the spec: the samples MaskedMeanFilter computes its mean
    from, those whose pointing lies at a distance greater than [radius]
    from [center]. *)
Definition unmasked (samples : list Qc) (pointing : list (Qc * Qc))
    (center : Qc * Qc) (radius : Qc) : list Qc :=
  fst <$> filter (λ sp, radius < distance sp.2 center) (zip samples pointing).

(** Modelled from the spec: the mean MaskedMeanFilter computes. *)
Definition masked_mean (samples : list Qc) (pointing : list (Qc * Qc))
    (center : Qc * Qc) (radius : Qc) : option Qc :=
  mean (unmasked samples pointing center radius).

(** Modelled from the spec: MaskedMeanFilter, the masked form of [filter]:
    the restricted mean is subtracted from all the samples of the record,
    the masked ones included.  Without a sample outside the mask there is
    no mean to subtract. *)
Definition MaskedMeanFilter (samples : list Qc) (pointing : list (Qc * Qc))
    (center : Qc * Qc) (radius : Qc) : option (list Qc) :=
  m ← masked_mean samples pointing center radius;
  Some (sub_scalar samples m).

(** A constant background with one spike of height [s] at index [k]. *)
Definition spiked (background s : Qc) (k n : nat) : list Qc :=
  <[k := background + s]> (replicate n background).
End Filters.
End Filters.

(** ** Notions used to state more properties *)

(** [np.sum(a)] of a 2-d array *)
Definition total (a : array2) : Qc := sum (sum <$> a).

(** [a * c] of a 2-d array and a scalar *)
Definition scale (c : Qc) (a : array2) : array2 :=
  (λ row : list Qc, (λ v, v * c) <$> row) <$> a.

(** The pointing of the sample [(y, x, w)] is inside the range of the
    edges of the grid, on both axes. *)
Definition in_grid (U : G3Units) (s : Qc * Qc * Qc) : bool :=
  negb (out_of_range (dec_edges U) s.1.1 || out_of_range (ra_edges U) s.1.2).

(** [frame[key] = obj]: a frame does not replace an object it holds. *)
Definition setitem (frame : G3Frame) (key : string) (obj : G3FrameObject)
    : result G3Frame :=
  match frame !! key with
  | None => Ok (<[key := obj]> frame)
  | Some _ => Err RuntimeError
  end.

(** ** Calibration

    [Calibrate], in its first form (the loop over the detectors).  The
    notebook defines [Calibrate] a second time, in a vectorized form, which
    is the one its last pipeline runs; that form is not modelled.  A
    timestream is its sequence of samples here; the units tag that the loop
    sets on every output timestream ([ts2.units = cal_units]) is not part of
    the frame model.  The order in which a timestream map is iterated
    belongs to the library; [items] stands for it. *)

Section Calibration.
(** [cal = calframe["DetectorCalibration"]] *)
Variable cal : gmap string Qc.
(** [ts_in.items()] *)
Variable items : gmap string (list Qc) → list (string * list Qc).

(** loop over timestreams and multiply by the calibration constant for each
    detector *)
Fixpoint calibrate_items (its : list (string * list Qc))
    (ts_out : gmap string (list Qc)) : result (gmap string (list Qc)) :=
  match its with
  | [] => Ok ts_out
  | (det, ts) :: rest =>
      c ← getitem cal det;
      let ts2 := (λ v, v * c) <$> ts in
      calibrate_items rest (<[det := ts2]> ts_out)
  end.

Definition Calibrate (frame : G3Frame) : result G3Frame :=
  match frame !! "RawTimestreams" with
  | None => Ok frame (* skip frames that don't contain the input key *)
  | Some (G3Timestream _) => Err AttributeError (* it has no [items] *)
  | Some (G3TimestreamMap ts_in) =>
      (* create a new output timestream object *)
      ts_out ← calibrate_items (items ts_in) ∅;
      (* store the calibrated timestreams to the output key in the frame *)
      setitem frame "CalTimestreams" (G3TimestreamMap ts_out)
  end.
End Calibration.

(** ** Floating-point arithmetic

    The class [SingleMapBinner] once more, with the rounding of its
    floating-point operations written out: a sum, a difference or a
    quotient of two floats is the exact result, rounded.  [rnd] is the
    rounding; [round64] below is that of binary64.  Comparisons are exact.
    Infinities, not-a-number and the sign of zero are not represented.  The
    class reads the edges and the shape of the grid from the globals
    [dec_edges], [ra_edges], [ny], [nx]; they are parameters here. *)

Module Binary64.
Section Rounded.
(** the rounding of a real number to a float *)
Variable rnd : Qc → Qc.
Variable U : G3Units.
(** [np.cos], with a float for result *)
Variable cos : Qc → Qc.
Variables xoff yoff : gmap string Qc.
(** the globals of the grid *)
Variables ny nx : nat.
Variables dec_edges ra_edges : list Qc.

(** [a - c] of a 1-d array and a scalar. *)
Definition sub_scalar (a : list Qc) (c : Qc) : list Qc :=
  (λ v, rnd (v - c)) <$> a.

(** [a + b] of two 1-d arrays. *)
Definition add_arrays (a b : list Qc) : result (list Qc) :=
  if decide (length a = length b) then Ok (zip_with (λ v w, rnd (v + w)) a b)
  else match a, b with
       | [v], _ => Ok ((λ w, rnd (v + w)) <$> b)
       | _, [w] => Ok ((λ v, rnd (v + w)) <$> a)
       | _, _ => Err ValueError
       end.

(** [a += b] for equally shaped 2-d arrays. *)
Definition iadd (a b : array2) : result array2 :=
  if decide (shape a = shape b)
  then Ok (zip_with (zip_with (λ v w, rnd (v + w))) a b)
  else Err ValueError.

(** The counts of [np.bincount] without weights are integers, added
    exactly; the histogram holds them as floats. *)
Definition counts2 (edges_y edges_x : list Qc) (yx : list (Qc * Qc))
    (n m : nat) : array2 :=
  (λ row : list Qc, rnd <$> row)
    <$> bincount2 edges_y edges_x (zip yx (replicate (length yx) 1))
          (zeros n m).

(** [h[i, j] += w] *)
Definition bump (h : array2) (i j : nat) (w : Qc) : array2 :=
  alter (alter (λ v, rnd (v + w)) j) i h.

(** The accumulation of [np.bincount] with weights, in sample order. *)
Fixpoint bincount2 (edges_y edges_x : list Qc) (yxw : list (Qc * Qc * Qc))
    (h : array2) : array2 :=
  match yxw with
  | [] => h
  | (y, x, w) :: rest =>
      let h' := match bin_index edges_y y, bin_index edges_x x with
                | Some i, Some j => bump h i j w
                | _, _ => h
                end in
      bincount2 edges_y edges_x rest h'
  end.

(** [np.histogram2d(y, x, bins=[edges_y, edges_x], weights=weights)[0]] *)
Definition histogram2d (y x : list Qc) (edges_y edges_x : list Qc)
    (weights : option (list Qc)) : result array2 :=
  if decide (length x ≠ length y) then Err ValueError
  else if negb (monotonic edges_y && monotonic edges_x) then Err ValueError
  else
    let n := pred (length edges_y) in
    let m := pred (length edges_x) in
    match weights with
    | Some w =>
        if decide (y = []) then Ok (zeros n m)
        else if decide (length w = length y)
        then Ok (bincount2 edges_y edges_x (zip (zip y x) w) (zeros n m))
        else Err ValueError
    | None => Ok (counts2 edges_y edges_x (zip y x) n m)
    end.

Definition __init__ (det timestreams : string) : SingleMapBinner :=
  {| det := det; timestreams := timestreams;
     data := zeros ny nx; hits := zeros ny nx |}.

(** calculate offset pointing *)
Definition offset_pointing (det : string) (frame : G3Frame)
    : result (list Qc * list Qc) :=
  dy ← getitem yoff det;
  dec ← asarray frame "BoresightDec";
  let y := sub_scalar dec dy in
  xo ← getitem xoff det;
  let dx := (λ v, rnd (xo / cos (rnd (v / Qp_to_Qc (rad U))))) <$> y in
  ra ← asarray frame "BoresightRa";
  x ← add_arrays ra dx;
  Ok (y, x).

(** What a frame adds to [data] and to [hits]. *)
Definition increments (det timestreams : string) (frame : G3Frame)
    : result (option (array2 * array2)) :=
  match frame !! timestreams with
  | None => Ok None
  | Some (G3Timestream _) => Ok None
  | Some (G3TimestreamMap tsmap) =>
      match tsmap !! det with
      | None => Ok None
      | Some ts =>
          '(y, x) ← offset_pointing det frame;
          weighted ← histogram2d y x dec_edges ra_edges (Some ts);
          counts ← histogram2d y x dec_edges ra_edges None;
          Ok (Some (weighted, counts))
      end
  end.

(** Adding the increments of a frame to the binner. *)
Definition accumulate (self : SingleMapBinner)
    (inc : option (array2 * array2)) : result SingleMapBinner :=
  match inc with
  | None => Ok self
  | Some (weighted, counts) =>
      data' ← iadd (data self) weighted;
      hits' ← iadd (hits self) counts;
      Ok {| det := det self; timestreams := timestreams self;
            data := data'; hits := hits' |}
  end.

Definition __call__ (self : SingleMapBinner) (frame : G3Frame)
    : result SingleMapBinner :=
  match frame !! timestreams self with
  | None => Ok self
  | Some (G3Timestream _) => Ok self
  | Some (G3TimestreamMap tsmap) =>
      match tsmap !! det self with
      | None => Ok self
      | Some ts =>
          '(y, x) ← offset_pointing (det self) frame;
          (* update data and hits, in-place *)
          weighted ← histogram2d y x dec_edges ra_edges (Some ts);
          data' ← iadd (data self) weighted;
          counts ← histogram2d y x dec_edges ra_edges None;
          hits' ← iadd (hits self) counts;
          Ok {| det := det self; timestreams := timestreams self;
                data := data'; hits := hits' |}
      end
  end.

Fixpoint Run (binner : SingleMapBinner) (frames : list G3Frame)
    : result SingleMapBinner :=
  match frames with
  | [] => Ok binner
  | frame :: rest => binner' ← __call__ binner frame; Run binner' rest
  end.
End Rounded.

(** [2^e] for an integer exponent *)
Definition pow2 (e : Z) : Qc :=
  if decide (0 ≤ e)%Z then Qc_of_Z (2 ^ e) else / Qc_of_Z (2 ^ (- e)).

(** The integer nearest to [y ≥ 0], a tie going to the even one. *)
Definition rint (y : Qc) : Z :=
  let f := int y in
  let r := y - Qc_of_Z f in
  if decide (r < lit 1 2) then f
  else if decide (lit 1 2 < r) then (f + 1)%Z
  else if Z.even f then f else (f + 1)%Z.

(** [⌊log2 x⌋] for [x > 0] *)
Definition ilog2 (x : Qc) : Z :=
  let l := (Z.log2 (Qnum x) - Z.log2 (Z.pos (Qden x)))%Z in
  if decide (pow2 l ≤ x) then l else (l - 1)%Z.

(** The float nearest to [x > 0]: 53 significant bits, none below
    [2^-1074]. *)
Definition round_pos (x : Qc) : Qc :=
  let e := Z.max (ilog2 x - 52) (-1074) in
  Qc_of_Z (rint (x / pow2 e)) * pow2 e.

(** The rounding of binary64: to the nearest float, a tie going to the
    even significand.  A result beyond the largest float, an infinity in
    binary64, is not represented. *)
Definition round64 (x : Qc) : Qc :=
  if decide (0 < x) then round_pos x
  else if decide (x < 0) then - round_pos (- x)
  else 0.
End Binary64.

(** ** A small instance

    Units for which the grid has two bins per axis, one detector, and a
    few frames; the properties are exercised on them below. *)

Definition U0 : G3Units :=
  {| rad := 1; deg := 1; degrees := 1; arcmin := 1 / 2; arcsec := 1 / 4;
     rahour := 1; raminute := 1 / 2; rasecond := 1 / 4; mK := 1 |}%Qp.

Definition cos0 : Qc → Qc := λ _, 1.

Definition det0 : string := "2019.00e".

Definition offsets0 : gmap string Qc := {[ det0 := lit 1 8 ]}.
Definition zero_offsets : gmap string Qc := {[ det0 := 0 ]}.
Definition no_offsets : gmap string Qc := ∅.

Definition dec_samples0 : list Qc :=
  [dec0 U0 + lit 1 8; dec0 U0 + lit 1 4; dec0 U0 + lit 3 8; dec0 U0 + lit 5 8].
Definition ra_samples0 : list Qc :=
  [ra0 U0 - lit 1 8; ra0 U0 - lit 1 4; ra0 U0 + lit 1 8; ra0 U0 - lit 1 8].
Definition signal0 : list Qc := [lit 10 1; lit 20 1; lit 30 1; lit 40 1].

(** a scan frame with calibrated timestreams *)
Definition scan0 : G3Frame :=
  {[ "BoresightDec" := G3Timestream dec_samples0;
     "BoresightRa" := G3Timestream ra_samples0;
     "CalTimestreams" := G3TimestreamMap {[ det0 := signal0 ]} ]}.

(** a second scan, one row of samples along the upper edge of the map *)
Definition scan1 : G3Frame :=
  {[ "BoresightDec" := G3Timestream [dec0 U0 + lit 3 8; dec0 U0 + lit 3 8];
     "BoresightRa" := G3Timestream [ra0 U0 - lit 3 8; ra0 U0 + lit 1 8];
     "CalTimestreams" := G3TimestreamMap {[ det0 := [lit 7 1; lit (-3) 1] ]} ]}.

(** a frame without timestreams *)
Definition bare0 : G3Frame :=
  {[ "BoresightDec" := G3Timestream dec_samples0;
     "BoresightRa" := G3Timestream ra_samples0 ]}.

(** a scan that points away from the map *)
Definition far0 : G3Frame :=
  {[ "BoresightDec" := G3Timestream [dec0 U0 + lit 5 1; dec0 U0];
     "BoresightRa" := G3Timestream [ra0 U0; ra0 U0 - lit 5 1];
     "CalTimestreams" := G3TimestreamMap {[ det0 := [lit 1 1; lit 2 1] ]} ]}.

Definition binner0 : SingleMapBinner := __init__ U0 det0 default_timestreams.

Definition frames0 : list G3Frame := [scan0; bare0; scan1; scan0].

(** the binner after the run over [frames0] *)
Definition final0 : SingleMapBinner :=
  match Run U0 cos0 offsets0 offsets0 binner0 frames0 with
  | Ok binner => binner
  | Err _ => binner0
  end.

(** the binner after [scan0] then [scan1] *)
Definition final01 : SingleMapBinner :=
  match Run U0 cos0 offsets0 offsets0 binner0 [scan0; scan1] with
  | Ok binner => binner
  | Err _ => binner0
  end.

(** a flat-sky separation, squared *)
Definition separation0 (p c : Qc * Qc) : Qc :=
  (p.1 - c.1) * (p.1 - c.1) + (p.2 - c.2) * (p.2 - c.2).

Definition origin : Qc * Qc := (0, 0).

(** pointings of a three-sample record: far, on the source, far *)
Definition pointing0 : list (Qc * Qc) :=
  [(lit 3 1, 0); (0, lit 1 2); (0, lit (-4) 1)].

(** calibration constants of two detectors *)
Definition cal0 : gmap string Qc := {[ det0 := lit 2 1; "2019.00f" := lit 3 1 ]}.

(** a scan frame as read from the file, with raw timestreams *)
Definition raw0 : G3Frame :=
  {[ "BoresightDec" := G3Timestream dec_samples0;
     "BoresightRa" := G3Timestream ra_samples0;
     "RawTimestreams" :=
       G3TimestreamMap {[ det0 := [lit 5 1; lit 10 1; lit 15 1; lit 20 1];
                          "2019.00f" := [lit 1 1; lit 1 1; lit 2 1; lit 2 1] ]} ]}.

(** raw timestreams with a detector that has no calibration constant *)
Definition raw_map1 : gmap string (list Qc) :=
  {[ det0 := [lit 5 1; lit 10 1; lit 15 1; lit 20 1];
     "2019.01a" := [lit 1 1; lit 1 1; lit 2 1; lit 2 1] ]}.

Definition raw1 : G3Frame :=
  {[ "BoresightDec" := G3Timestream dec_samples0;
     "BoresightRa" := G3Timestream ra_samples0;
     "RawTimestreams" := G3TimestreamMap raw_map1 ]}.

(** a scan frame without a sample of pointing, with its signal left *)
Definition empty0 : G3Frame :=
  {[ "BoresightDec" := G3Timestream [];
     "BoresightRa" := G3Timestream [];
     "CalTimestreams" := G3TimestreamMap {[ det0 := signal0 ]} ]}.

(** a scan frame that has lost its declination *)
Definition nodec0 : G3Frame :=
  {[ "BoresightRa" := G3Timestream ra_samples0;
     "CalTimestreams" := G3TimestreamMap {[ det0 := signal0 ]} ]}.

(** the binner after [scan0] alone *)
Definition first0 : SingleMapBinner :=
  match __call__ U0 cos0 offsets0 offsets0 binner0 scan0 with
  | Ok binner => binner
  | Err _ => binner0
  end.

(** [raw0] after [Calibrate] *)
Definition calibrated0 : G3Frame :=
  match Calibrate cal0 map_to_list raw0 with
  | Ok frame => frame
  | Err _ => raw0
  end.

(** a grid of two bins per axis, with floats for edges *)
Definition float_edges0 : list Qc := [lit (-1) 1; 0; 1].

(** [2^53], a float whose successor is not one *)
Definition big0 : Qc := Qc_of_Z (2 ^ 53).

(** three scans of one sample each, all in the pixel [(1, 1)] *)
Definition one_sample (signal : Qc) : G3Frame :=
  {[ "BoresightDec" := G3Timestream [lit 1 2];
     "BoresightRa" := G3Timestream [lit 1 2];
     "CalTimestreams" := G3TimestreamMap {[ det0 := [signal] ]} ]}.
Definition heavy0 : G3Frame := one_sample big0.
Definition light0 : G3Frame := one_sample 1.
Definition minus0 : G3Frame := one_sample (- big0).

(** the binary64 binner after [heavy0] *)
Definition loaded0 : SingleMapBinner :=
  match Binary64.Run Binary64.round64 U0 cos0 zero_offsets zero_offsets
          float_edges0 float_edges0
          (Binary64.__init__ 2 2 det0 default_timestreams) [heavy0] with
  | Ok binner => binner
  | Err _ => Binary64.__init__ 2 2 det0 default_timestreams
  end.

(** the binary64 binner after [heavy0] then [light0] *)
Definition pair0 : SingleMapBinner :=
  match Binary64.Run Binary64.round64 U0 cos0 zero_offsets zero_offsets
          float_edges0 float_edges0
          (Binary64.__init__ 2 2 det0 default_timestreams)
          [heavy0; light0] with
  | Ok binner => binner
  | Err _ => Binary64.__init__ 2 2 det0 default_timestreams
  end.

(** ** Properties *)

Global Arguments nx : simpl never.
Global Arguments ny : simpl never.
Global Arguments ra_edges : simpl never.
Global Arguments dec_edges : simpl never.
Global Arguments bin_index : simpl never.
Global Arguments in_bin : simpl never.
Global Arguments Qc_of_nat : simpl never.

Lemma Qc_of_nat_lt (n m : nat) : (n < m)%nat → Qc_of_nat n < Qc_of_nat m.
Proof. intros H. unfold Qc_of_nat. apply (proj1 (Z2Qc_inj_lt _ _)). lia. Qed.

Lemma Qc_of_nat_pos (n : nat) : (0 < n)%nat → 0 < Qc_of_nat n.
Proof.
  intros H. rewrite <- Z2Qc_inj_0. unfold Qc_of_nat.
  apply (proj1 (Z2Qc_inj_lt _ _)). lia.
Qed.

Lemma Qc_of_nat_S_neq_0 (n : nat) : Qc_of_nat (S n) ≠ 0.
Proof.
  intros H. rewrite <- Z2Qc_inj_0 in H. apply Z2Qc_inj in H. lia.
Qed.

Lemma length_linspace start stop num : length (linspace start stop num) = num.
Proof.
  destruct num as [|[|n]]; simpl; [done..|].
  rewrite length_app, length_cons, length_fmap, length_seq. simpl. lia.
Qed.

(** Every sample of [linspace], the overwritten last one included, lies on
    the line [start + i * step]. *)
Lemma lookup_linspace start stop n i :
  (i ≤ S n)%nat →
  linspace start stop (S (S n)) !! i
  = Some (start + Qc_of_nat i * ((stop - start) / Qc_of_nat (S n))).
Proof.
  intros Hi. unfold linspace.
  destruct (decide (i = S n)) as [->|Hne].
  - rewrite lookup_app_r; rewrite length_fmap, length_seq; [|lia].
    rewrite Nat.sub_diag. simpl. f_equal.
    pose proof (Qc_of_nat_S_neq_0 n). field. done.
  - rewrite lookup_app_l; [|rewrite length_fmap, length_seq; lia].
    rewrite list_lookup_fmap, lookup_seq_lt by lia. done.
Qed.

Lemma linspace_strictly_increasing start stop num :
  start < stop → strictly_increasing (linspace start stop num).
Proof.
  intros Hlt i j a b Hij Hi Hj.
  pose proof (lookup_lt_Some _ _ _ Hj) as Hlen. rewrite length_linspace in Hlen.
  destruct num as [|[|n]]; [lia..|].
  rewrite lookup_linspace in Hi by lia. rewrite lookup_linspace in Hj by lia.
  simplify_eq.
  apply Qcplus_lt_mono_l, Qcmult_lt_mono_pos_r; [|by apply Qc_of_nat_lt].
  apply Qcmult_pos_pos.
  - apply (Qcplus_lt_mono_r _ _ start). by ring_simplify.
  - apply Qcinv_pos, Qc_of_nat_pos. lia.
Qed.

Lemma length_edges len center n : length (edges len center n) = S n.
Proof.
  unfold edges, add_scalar. rewrite length_fmap, length_linspace. lia.
Qed.

Lemma edges_strictly_increasing len center n :
  0 < len → strictly_increasing (edges len center n).
Proof.
  intros Hlen i j a b Hij. unfold edges, add_scalar.
  rewrite !list_lookup_fmap. intros Hi Hj.
  destruct (linspace _ _ _ !! i) as [a'|] eqn:Ha; [|done].
  destruct (linspace _ _ _ !! j) as [b'|] eqn:Hb; [|done].
  simplify_eq/=. apply Qcplus_lt_mono_r.
  eapply linspace_strictly_increasing; [|exact Hij|exact Ha|exact Hb].
  assert (0 < len / lit 2 1) as Hhalf.
  { apply Qcmult_pos_pos; [done|]. by apply Qcinv_pos. }
  apply Qclt_trans with 0; [|done].
  replace (- len / lit 2 1) with (- (len / lit 2 1)) by (by field).
  apply (Qcplus_lt_mono_r _ _ (len / lit 2 1)).
  by ring_simplify.
Qed.

Lemma int_nonneg (q : Qc) : 0 ≤ q → (0 ≤ int q)%Z.
Proof.
  intros Hq. unfold int. apply Z.quot_pos; [|lia].
  unfold Qcle, Qle in Hq. simpl in Hq. lia.
Qed.

Lemma half_pos (u : Qp) : 0 < lit 5 10 * Qp_to_Qc u.
Proof. apply Qcmult_pos_pos; [done|apply Qp_prf]. Qed.

Lemma xlen_pos U : 0 < xlen U.
Proof. apply half_pos. Qed.

Lemma ylen_pos U : 0 < ylen U.
Proof. apply half_pos. Qed.

Lemma res_pos U : 0 < res U.
Proof. apply half_pos. Qed.

(** The bin counts are the integers the notebook computes: nothing is lost
    in reading [int(xlen / res)] as a natural number. *)
Lemma nx_int U : Z.of_nat (nx U) = int (xlen U / res U).
Proof.
  unfold nx. apply Z2Nat.id, int_nonneg, Qclt_le_weak, Qcmult_pos_pos.
  - apply xlen_pos.
  - apply Qcinv_pos, res_pos.
Qed.

Lemma ny_int U : Z.of_nat (ny U) = int (ylen U / res U).
Proof.
  unfold ny. apply Z2Nat.id, int_nonneg, Qclt_le_weak, Qcmult_pos_pos.
  - apply ylen_pos.
  - apply Qcinv_pos, res_pos.
Qed.

(** C7.  For every bin count [N] the grid construction
    [np.linspace(-len / 2, len / 2, N + 1) + center] yields exactly [N + 1]
    edges, in strictly increasing order; so do the notebook's two edge
    arrays, for [nx = int(xlen / res)] and [ny = int(ylen / res)] bins. *)
Theorem grid_edge_invariant (U : G3Units) :
  (∀ (len : Qp) (center : Qc) (N : nat),
     length (edges (Qp_to_Qc len) center N) = S N
     ∧ strictly_increasing (edges (Qp_to_Qc len) center N))
  ∧ (Z.of_nat (nx U) = int (xlen U / res U)
     ∧ length (ra_edges U) = S (nx U) ∧ strictly_increasing (ra_edges U))
  ∧ (Z.of_nat (ny U) = int (ylen U / res U)
     ∧ length (dec_edges U) = S (ny U) ∧ strictly_increasing (dec_edges U)).
Proof.
  repeat split.
  - apply length_edges.
  - apply edges_strictly_increasing, Qp_prf.
  - apply nx_int.
  - apply length_edges.
  - apply edges_strictly_increasing, xlen_pos.
  - apply ny_int.
  - apply length_edges.
  - apply edges_strictly_increasing, ylen_pos.
Qed.

(** *** The binner on one frame *)

Section Binner.
Context (U : G3Units) (cos : Qc → Qc) (xoff yoff : gmap string Qc).

Local Abbreviation pointing := (offset_pointing U cos xoff yoff).
Local Abbreviation call := (__call__ U cos xoff yoff).

(** The pointing of a well-formed frame, written out. *)
Lemma offset_pointing_ok d frame dec ra dy xo :
  yoff !! d = Some dy → xoff !! d = Some xo →
  frame !! "BoresightDec" = Some (G3Timestream dec) →
  frame !! "BoresightRa" = Some (G3Timestream ra) →
  length dec = length ra →
  pointing d frame
  = Ok ((λ v, v - dy) <$> dec,
        zip_with (λ r v, r + xo / cos ((v - dy) / Qp_to_Qc (rad U))) ra dec).
Proof.
  intros Hy Hx Hdec Hra Hlen. unfold offset_pointing, asarray, getitem.
  rewrite Hy, Hx, Hdec, Hra. simpl. unfold add_arrays, sub_scalar.
  rewrite decide_True by (by rewrite !length_fmap). simpl. do 2 f_equal.
  clear. revert dec.
  induction ra as [|r ra IH]; intros [|v dec]; simpl; [done..|].
  by rewrite IH.
Qed.

(** C2.  For a frame with boresight timestreams of equal length and a
    detector with offsets [(xo, dy)], the reconstructed pointing is
    [y = BoresightDec - dy] and [x = BoresightRa + xo / cos(y / U.rad)],
    the cosine taken of the offset-corrected [y]; these are the arrays the
    binner histograms when it ingests the frame. *)
Theorem pointing_reconstruction d frame dec ra dy xo :
  yoff !! d = Some dy → xoff !! d = Some xo →
  frame !! "BoresightDec" = Some (G3Timestream dec) →
  frame !! "BoresightRa" = Some (G3Timestream ra) →
  length dec = length ra →
  ∃ y x,
    offset_pointing U cos xoff yoff d frame = Ok (y, x)
    ∧ length y = length dec ∧ length x = length dec
    ∧ (∀ k v r, dec !! k = Some v → ra !! k = Some r →
         y !! k = Some (v - dy)
         ∧ x !! k = Some (r + xo / cos ((v - dy) / Qp_to_Qc (rad U))))
    ∧ (∀ self tsmap ts,
         d = det self →
         frame !! timestreams self = Some (G3TimestreamMap tsmap) →
         tsmap !! d = Some ts →
         __call__ U cos xoff yoff self frame
         = (weighted ← histogram2d y x (dec_edges U) (ra_edges U) (Some ts);
            data' ← iadd (data self) weighted;
            counts ← histogram2d y x (dec_edges U) (ra_edges U) None;
            hits' ← iadd (hits self) counts;
            Ok {| det := d; timestreams := timestreams self;
                  data := data'; hits := hits' |})).
Proof.
  intros Hy Hx Hdec Hra Hlen. eexists _, _.
  split; [by apply offset_pointing_ok|].
  split; [by rewrite length_fmap|].
  split; [rewrite length_zip_with; lia|].
  split.
  - intros k v r Hv Hr. rewrite list_lookup_fmap, Hv. split; [done|].
    rewrite lookup_zip_with, Hr. simpl. by rewrite Hv.
  - intros self tsmap ts -> Hts Hdet. unfold __call__.
    rewrite Hts, Hdet.
    by rewrite (offset_pointing_ok _ _ _ _ _ _ Hy Hx Hdec Hra Hlen).
Qed.

(** C6.  With offsets [(0, 0)] the reconstructed pointing is the boresight
    pointing itself, whatever the boresight timestreams are. *)
Theorem zero_offset_pointing d frame dec ra :
  yoff !! d = Some 0 → xoff !! d = Some 0 →
  frame !! "BoresightDec" = Some (G3Timestream dec) →
  frame !! "BoresightRa" = Some (G3Timestream ra) →
  length dec = length ra →
  offset_pointing U cos xoff yoff d frame = Ok (dec, ra).
Proof.
  intros Hy Hx Hdec Hra Hlen.
  rewrite (offset_pointing_ok _ _ _ _ _ _ Hy Hx Hdec Hra Hlen). do 2 f_equal.
  - rewrite <- (list_fmap_id dec) at 2. apply list_fmap_ext.
    intros _ v _. simpl. ring.
  - clear -Hlen. revert dec Hlen.
    induction ra as [|r ra IH]; intros [|v dec] Hlen; simplify_eq/=; [done|].
    rewrite IH by done. f_equal. unfold Qcdiv. ring.
Qed.

(** C4.  A frame without the configured timestream field, or whose
    timestream map has no entry for the target detector, is skipped: the
    call raises nothing and returns the binner as it was, [data] and
    [hits] included. *)
Theorem skipped_frame_is_noop (self : SingleMapBinner) (frame : G3Frame) :
  frame !! timestreams self = None
  ∨ (∃ tsmap, frame !! timestreams self = Some (G3TimestreamMap tsmap)
              ∧ tsmap !! det self = None) →
  __call__ U cos xoff yoff self frame = Ok self
  ∧ ∀ self', __call__ U cos xoff yoff self frame = Ok self' →
             data self' = data self ∧ hits self' = hits self.
Proof.
  intros H.
  assert (call self frame = Ok self) as Heq.
  { unfold __call__. destruct H as [->|(tsmap & -> & ->)]; done. }
  split; [done|]. intros self'. rewrite Heq. by intros [= <-].
Qed.

(** C3, as the code has it.  Constructing the binner looks at no offset
    table: [__init__] builds the zeroed binner for any detector name.  A
    detector without an offset entry is reported by the call, at every
    frame that carries a timestream of that detector: the call raises, with
    [KeyError] of the detector when the y-offset is missing, or when the
    x-offset is and the frame has its [BoresightDec]; the frame is never
    binned with an offset of zero. *)
Theorem unknown_detector_raises_at_call (self : SingleMapBinner)
    (frame : G3Frame) tsmap ts :
  frame !! timestreams self = Some (G3TimestreamMap tsmap) →
  tsmap !! det self = Some ts →
  yoff !! det self = None ∨ xoff !! det self = None →
  __init__ U (det self) (timestreams self)
  = {| det := det self; timestreams := timestreams self;
       data := zeros (ny U) (nx U); hits := zeros (ny U) (nx U) |}
  ∧ (∃ e, __call__ U cos xoff yoff self frame = Err e)
  ∧ (yoff !! det self = None →
     __call__ U cos xoff yoff self frame = Err (KeyError (det self)))
  ∧ (∀ dec, frame !! "BoresightDec" = Some (G3Timestream dec) →
     __call__ U cos xoff yoff self frame = Err (KeyError (det self))).
Proof.
  intros Hts Hdet Hoff. split; [done|].
  unfold __call__, offset_pointing, getitem.
  rewrite Hts, Hdet.
  destruct (yoff !! det self) as [dy|] eqn:Hy; simpl; [|by eauto].
  destruct Hoff as [?|Hx]; [done|]. unfold asarray, getitem.
  destruct (frame !! "BoresightDec") as [[dec|?]|]; simpl;
    rewrite ?Hx; simpl; repeat split; eauto; done.
Qed.
End Binner.

(** *** numpy: the search and the bins *)

Lemma searchsorted_right_le edges v :
  (searchsorted_right edges v ≤ length edges)%nat.
Proof. induction edges; simpl; [lia|]. case_decide; simpl; lia. Qed.

Lemma searchsorted_right_below edges v i e :
  (i < searchsorted_right edges v)%nat → edges !! i = Some e → e ≤ v.
Proof.
  revert i. induction edges as [|a edges IH]; intros i; simpl; [lia|].
  case_decide; [|lia]. destruct i as [|i]; simpl.
  - by intros _ [= <-].
  - intros Hi. apply IH. lia.
Qed.

Lemma searchsorted_right_stop edges v e :
  edges !! searchsorted_right edges v = Some e → v < e.
Proof.
  induction edges as [|a edges IH]; simpl; [done|].
  case_decide as Ha; simpl; [done|].
  intros [= <-]. by apply Qclt_nge.
Qed.

Lemma strictly_increasing_le edges i j a b :
  strictly_increasing edges → (i ≤ j)%nat →
  edges !! i = Some a → edges !! j = Some b → a ≤ b.
Proof.
  intros Hinc Hij Hi Hj. destruct (decide (i = j)) as [->|].
  - simplify_eq. apply Qcle_refl.
  - apply Qclt_le_weak, (Hinc i j); [lia|done..].
Qed.

Lemma searchsorted_right_above edges v i e :
  strictly_increasing edges → edges !! i = Some e → e ≤ v →
  (i < searchsorted_right edges v)%nat.
Proof.
  intros Hinc Hi Hle.
  destruct (decide (i < searchsorted_right edges v)%nat) as [|Hge]; [done|].
  exfalso.
  destruct (lookup_lt_is_Some_2 edges (searchsorted_right edges v)) as [e' He'].
  { apply lookup_lt_Some in Hi. lia. }
  pose proof (searchsorted_right_stop _ _ _ He') as Hlt.
  assert (e' ≤ e) as Hle'.
  { eapply (strictly_increasing_le edges _ i); [done| |done..]. lia. }
  apply Qclt_nge in Hlt. apply Hlt. by etrans.
Qed.

(** For increasing edges, numpy's bin of a value is the interval the
    value lies in. *)
Lemma bin_index_in_bin edges v i :
  strictly_increasing edges → bin_index edges v = Some i ↔ in_bin edges i v.
Proof.
  intros Hinc. unfold bin_index, in_bin.
  pose proof (searchsorted_right_le edges v) as Hk.
  split.
  - destruct (decide (last edges = Some v)) as [Hlast|Hlast].
    + rewrite last_lookup in Hlast.
      pose proof (searchsorted_right_above _ _ _ _ Hinc Hlast (Qcle_refl v)).
      case_decide as Hr; [|done]. intros [= <-].
      destruct (lookup_lt_is_Some_2 edges (pred (pred (length edges))))
        as [lo Hlo]; [lia|].
      replace (Init.Nat.pred (searchsorted_right edges v))
        with (Init.Nat.pred (length edges)) in * by lia.
      rewrite Hlo.
      replace (S (Init.Nat.pred (Init.Nat.pred (length edges))))
        with (Init.Nat.pred (length edges)) by lia.
      rewrite Hlast.
      assert (lo ≤ v).
      { eapply (searchsorted_right_below edges v); [|done]. lia. }
      rewrite (bool_decide_eq_true_2 (lo ≤ v)) by done.
      rewrite (bool_decide_eq_true_2 (v = v)) by done.
      rewrite (bool_decide_eq_true_2 (_ = length edges)) by lia.
      simpl. by rewrite orb_true_r.
    + case_decide as Hr; [|done]. intros [= <-].
      destruct (lookup_lt_is_Some_2 edges (pred (searchsorted_right edges v)))
        as [lo Hlo]; [lia|].
      destruct (lookup_lt_is_Some_2 edges (searchsorted_right edges v))
        as [hi Hhi]; [lia|].
      rewrite Hlo.
      replace (S (Init.Nat.pred (searchsorted_right edges v)))
        with (searchsorted_right edges v) by lia.
      rewrite Hhi.
      assert (lo ≤ v).
      { eapply (searchsorted_right_below edges v); [|done]. lia. }
      rewrite (bool_decide_eq_true_2 (lo ≤ v)) by done.
      rewrite (bool_decide_eq_true_2 (v < hi))
        by (by eapply searchsorted_right_stop).
      done.
  - destruct (edges !! i) as [lo|] eqn:Hlo; [|done].
    destruct (edges !! S i) as [hi|] eqn:Hhi; [|done].
    pose proof (lookup_lt_Some _ _ _ Hhi) as Hlen.
    intros [Hle Hhigh]%andb_prop_elim.
    apply bool_decide_unpack in Hle.
    pose proof (searchsorted_right_above _ _ _ _ Hinc Hlo Hle) as Hik.
    apply orb_prop_elim in Hhigh as [Hlt|[Heq Hend]%andb_prop_elim].
    + apply bool_decide_unpack in Hlt.
      assert (searchsorted_right edges v = S i) as Hkeq.
      { destruct (decide (S i < searchsorted_right edges v)%nat) as [Hlt'|];
          [|lia].
        pose proof (searchsorted_right_below _ _ _ _ Hlt' Hhi) as Hc.
        apply Qclt_nge in Hlt. done. }
      rewrite Hkeq.
      destruct (decide (last edges = Some v)) as [Hl|_].
      * exfalso. rewrite last_lookup in Hl.
        assert (hi ≤ v) as Hc.
        { eapply (strictly_increasing_le edges (S i)); [done| |done..]. lia. }
        apply Qclt_nge in Hlt. done.
      * destruct (decide (1 ≤ S i < length edges)%nat); [done|lia].
    + apply bool_decide_unpack in Heq. apply bool_decide_unpack in Hend.
      subst hi.
      pose proof (searchsorted_right_above _ _ _ _ Hinc Hhi (Qcle_refl v)).
      destruct (decide (last edges = Some v)) as [_|Hl].
      * case_decide; [f_equal; lia|lia].
      * exfalso. apply Hl. rewrite last_lookup. rewrite <- Hend. done.
Qed.

(** *** numpy: 2-d arrays *)

Lemma Qc_of_nat_S (n : nat) : Qc_of_nat (S n) = 1 + Qc_of_nat n.
Proof.
  unfold Qc_of_nat. rewrite Nat2Z.inj_succ, <- Z.add_1_l, Z2Qc_inj_add.
  by rewrite Z2Qc_inj_1.
Qed.

Lemma Qc_of_nat_0 : Qc_of_nat 0 = 0.
Proof. apply Z2Qc_inj_0. Qed.

Lemma Qc_of_nat_eq_0 (n : nat) : Qc_of_nat n = 0 → n = 0%nat.
Proof.
  intros H. rewrite <- Z2Qc_inj_0 in H. apply Z2Qc_inj in H. lia.
Qed.

Lemma sum_app (a b : list Qc) : sum (a ++ b) = sum a + sum b.
Proof.
  induction a as [|v a IH]; simpl.
  - by rewrite Qcplus_0_l.
  - rewrite IH. ring.
Qed.

Lemma cell_bump h i' j' w i j :
  cell (bump h i' j' w) i j
  = (λ v, if decide (i = i' ∧ j = j') then v + w else v) <$> cell h i j.
Proof.
  unfold cell, bump. destruct (decide (i' = i)) as [->|Hi].
  - rewrite list_lookup_alter_eq. destruct (h !! i) as [row|]; simpl; [|done].
    destruct (decide (j' = j)) as [->|Hj].
    + rewrite list_lookup_alter_eq. destruct (row !! j); simpl; [|done].
      by rewrite decide_True.
    + rewrite list_lookup_alter_ne by done. destruct (row !! j); simpl; [|done].
      rewrite decide_False; [done|]. by intros [_ ->].
  - rewrite list_lookup_alter_ne by done.
    destruct (h !! i ≫= λ row, row !! j); simpl; [|done].
    rewrite decide_False; [done|]. by intros [-> _].
Qed.

Lemma shape_bump h i j w : shape (bump h i j w) = shape h.
Proof.
  unfold shape, bump. apply list_eq. intros k. rewrite !list_lookup_fmap.
  destruct (decide (i = k)) as [->|].
  - rewrite list_lookup_alter_eq. destruct (h !! k); simpl; [|done].
    by rewrite length_alter.
  - by rewrite list_lookup_alter_ne.
Qed.

Lemma shape_bincount2 ey ex l h : shape (bincount2 ey ex l h) = shape h.
Proof.
  revert h. induction l as [|[[y x] w] l IH]; intros h; simpl; [done|].
  rewrite IH. destruct (bin_index ey y), (bin_index ex x); try done.
  apply shape_bump.
Qed.

(** The histogram in one cell: what the cell held, plus the weights of
    the samples that land in it. *)
Lemma cell_bincount2 ey ex l h i j :
  cell (bincount2 ey ex l h) i j
  = (λ v, v + sum (snd <$> filter (lands_in ey ex i j) l)) <$> cell h i j.
Proof.
  revert h. induction l as [|[[y x] w] l IH]; intros h; simpl.
  { destruct (cell h i j); simpl; [|done]. f_equal. ring. }
  rewrite IH, filter_cons.
  destruct (decide (lands_in ey ex i j (y, x, w))) as [[Hy Hx]|Hn]; simpl in *.
  - rewrite Hy, Hx, cell_bump. destruct (cell h i j) as [v|]; simpl; [|done].
    rewrite decide_True by done. f_equal. symmetry. apply Qcplus_assoc.
  - destruct (bin_index ey y) as [i'|] eqn:Hy, (bin_index ex x) as [j'|] eqn:Hx;
      try done.
    rewrite cell_bump. destruct (cell h i j) as [v|]; simpl; [|done].
    rewrite decide_False; [done|]. intros [-> ->]. apply Hn.
    by split.
Qed.

Lemma shape_zeros n m : shape (zeros n m) = replicate n m.
Proof. unfold shape, zeros. by rewrite fmap_replicate, length_replicate. Qed.

Lemma cell_zeros n m i j :
  (i < n)%nat → (j < m)%nat → cell (zeros n m) i j = Some 0.
Proof.
  intros Hi Hj. unfold cell, zeros. rewrite lookup_replicate_2 by done.
  simpl. by rewrite lookup_replicate_2.
Qed.

Lemma cell_is_Some a n m i j :
  shape a = replicate n m → (i < n)%nat → (j < m)%nat → is_Some (cell a i j).
Proof.
  intros Hs Hi Hj. unfold cell.
  assert (shape a !! i = Some m) as Hm.
  { rewrite Hs. by apply lookup_replicate_2. }
  unfold shape in Hm. rewrite list_lookup_fmap in Hm.
  destruct (a !! i) as [row|]; simplify_eq/=.
  by apply lookup_lt_is_Some_2.
Qed.

Lemma cell_add a b i j :
  cell (zip_with (zip_with Qcplus) a b) i j
  = match cell a i j, cell b i j with
    | Some v, Some w => Some (v + w)
    | _, _ => None
    end.
Proof.
  unfold cell. rewrite lookup_zip_with.
  destruct (a !! i) as [ra|], (b !! i) as [rb|]; simpl; try done.
  - rewrite lookup_zip_with. by destruct (ra !! j), (rb !! j).
  - by destruct (ra !! j).
Qed.

Lemma shape_add a b :
  shape a = shape b → shape (zip_with (zip_with Qcplus) a b) = shape a.
Proof.
  revert b. induction a as [|ra a IH]; intros [|rb b] H; simplify_eq/=; [done|].
  f_equal; [|by apply IH]. rewrite length_zip_with. lia.
Qed.

Lemma iadd_Ok a b c :
  iadd a b = Ok c ↔ shape a = shape b ∧ c = zip_with (zip_with Qcplus) a b.
Proof.
  unfold iadd. destruct (decide (shape a = shape b)) as [Hs|Hs].
  - split; [by intros [= <-]|by intros [_ ->]].
  - split; [done|by intros [? _]].
Qed.

Lemma add_zeros a n m :
  shape a = replicate n m → zip_with (zip_with Qcplus) a (zeros n m) = a.
Proof.
  unfold zeros. revert n.
  induction a as [|row a IH]; intros [|n] H; simplify_eq/=; [done|].
  f_equal; [|by apply IH].
  clear. induction row as [|v row IH]; simpl; [done|].
  rewrite IH. f_equal. ring.
Qed.

(** Adding two arrays one after the other can be done in either order. *)
Lemma zip_with_swap {A B} (f : A → B → A) (a : list A) (b c : list B) :
  (∀ x y z, f (f x y) z = f (f x z) y) →
  zip_with f (zip_with f a b) c = zip_with f (zip_with f a c) b.
Proof.
  intros Hf. revert b c.
  induction a as [|x a IH]; intros [|y b] [|z c]; simpl; try done.
  by rewrite Hf, IH.
Qed.

Lemma add_swap (a b c : array2) :
  zip_with (zip_with Qcplus) (zip_with (zip_with Qcplus) a b) c
  = zip_with (zip_with Qcplus) (zip_with (zip_with Qcplus) a c) b.
Proof.
  apply zip_with_swap. intros x y z. apply zip_with_swap.
  intros u v w. ring.
Qed.

Lemma histogram2d_Ok y x ey ex weights h :
  histogram2d y x ey ex weights = Ok h →
  length x = length y
  ∧ ∃ w, match weights with
         | Some w' =>
             zip (zip y x) w = zip (zip y x) w' ∧ length w = length y
         | None => w = replicate (length y) 1
         end
         ∧ h = bincount2 ey ex (zip (zip y x) w)
                 (zeros (pred (length ey)) (pred (length ex))).
Proof.
  unfold histogram2d. intros H.
  destruct (decide (length x ≠ length y)) as [|Hlen]; [done|].
  destruct (negb _); [done|].
  split; [by destruct (decide (length x = length y))|].
  destruct weights as [w'|]; unfold mbind, result_bind in H.
  - destruct (decide (y = [])) as [->|Hy].
    + injection H as <-. by exists [].
    + destruct (decide (length w' = length y)); [|done].
      injection H as <-. by exists w'.
  - injection H as <-. by eexists.
Qed.

(** The unweighted histogram exists whenever the weighted one does. *)
Lemma histogram2d_counts y x ey ex w h :
  histogram2d y x ey ex (Some w) = Ok h →
  ∃ h', histogram2d y x ey ex None = Ok h'.
Proof.
  unfold histogram2d. intros H.
  destruct (decide (length x ≠ length y)); [done|].
  destruct (negb _); [done|]. by eexists.
Qed.

(** Counting with unit weights counts the samples. *)
Lemma sum_unit_weights ey ex i j (yx : list (Qc * Qc)) (w : list Qc) :
  length w = length yx →
  sum (snd <$> filter (lands_in ey ex i j) (zip yx (replicate (length yx) 1)))
  = Qc_of_nat (length (filter (lands_in ey ex i j) (zip yx w))).
Proof.
  revert w. induction yx as [|p yx IH]; intros [|w0 w] Hlen; simplify_eq/=.
  { by rewrite Qc_of_nat_0. }
  rewrite !filter_cons.
  destruct (decide (lands_in ey ex i j (p, 1))) as [H1|H1],
    (decide (lands_in ey ex i j (p, w0))) as [H2|H2].
  - rewrite fmap_cons, length_cons, Qc_of_nat_S. cbn [sum foldr snd].
    fold (sum (snd <$> filter (lands_in ey ex i j)
                         (zip yx (replicate (length yx) 1)))).
    by rewrite (IH w).
  - exfalso. apply H2. exact H1.
  - exfalso. apply H1. exact H2.
  - by apply IH.
Qed.

(** *** The binner over a stream of frames *)

Lemma Qc_of_nat_add (n m : nat) : Qc_of_nat (n + m) = Qc_of_nat n + Qc_of_nat m.
Proof. unfold Qc_of_nat. by rewrite Nat2Z.inj_add, Z2Qc_inj_add. Qed.

Lemma lookup2_zip_with {A B C} (f : A → B → C) (a : list (list A))
    (b : list (list B)) i j :
  zip_with (zip_with f) a b !! i ≫= (λ row, row !! j)
  = match a !! i ≫= (λ row, row !! j), b !! i ≫= (λ row, row !! j) with
    | Some v, Some w => Some (f v w)
    | _, _ => None
    end.
Proof.
  rewrite lookup_zip_with.
  destruct (a !! i) as [ra|], (b !! i) as [rb|]; simpl; try done.
  - rewrite lookup_zip_with. by destruct (ra !! j), (rb !! j).
  - by destruct (ra !! j).
Qed.

Lemma accumulate_Some self weighted counts self' :
  accumulate self (Some (weighted, counts)) = Ok self' →
  shape (data self) = shape weighted ∧ shape (hits self) = shape counts
  ∧ self' = {| det := det self; timestreams := timestreams self;
               data := zip_with (zip_with Qcplus) (data self) weighted;
               hits := zip_with (zip_with Qcplus) (hits self) counts |}.
Proof.
  unfold accumulate. intros H.
  destruct (iadd (data self) weighted) as [d|] eqn:Hd; [|done].
  destruct (iadd (hits self) counts) as [h|] eqn:Hh; [|done].
  apply iadd_Ok in Hd as [? ->]. apply iadd_Ok in Hh as [? ->].
  by injection H as <-.
Qed.

Lemma accumulate_Some_2 self weighted counts :
  shape (data self) = shape weighted → shape (hits self) = shape counts →
  accumulate self (Some (weighted, counts))
  = Ok {| det := det self; timestreams := timestreams self;
          data := zip_with (zip_with Qcplus) (data self) weighted;
          hits := zip_with (zip_with Qcplus) (hits self) counts |}.
Proof.
  intros Hd Hh. unfold accumulate, iadd. by rewrite !decide_True by done.
Qed.

Lemma accumulate_config self inc self' :
  accumulate self inc = Ok self' →
  det self' = det self ∧ timestreams self' = timestreams self
  ∧ shape (data self') = shape (data self)
  ∧ shape (hits self') = shape (hits self).
Proof.
  destruct inc as [[weighted counts]|].
  - intros (Hd & Hh & ->)%accumulate_Some. simpl.
    by rewrite !shape_add by done.
  - by intros [= <-].
Qed.

(** Frames accumulate in either order. *)
Lemma accumulate_swap self inc1 inc2 self1 self2 :
  accumulate self inc1 = Ok self1 → accumulate self1 inc2 = Ok self2 →
  ∃ self1', accumulate self inc2 = Ok self1'
            ∧ accumulate self1' inc1 = Ok self2.
Proof.
  destruct inc1 as [[w1 c1]|], inc2 as [[w2 c2]|].
  - intros (Hd1 & Hh1 & ->)%accumulate_Some (Hd2 & Hh2 & ->)%accumulate_Some.
    simpl in Hd2, Hh2. rewrite shape_add in Hd2, Hh2 by done.
    exists {| det := det self; timestreams := timestreams self;
              data := zip_with (zip_with Qcplus) (data self) w2;
              hits := zip_with (zip_with Qcplus) (hits self) c2 |}.
    split; [by apply accumulate_Some_2|].
    rewrite accumulate_Some_2; simpl; [|by rewrite shape_add..].
    do 2 f_equal; apply add_swap.
  - intros H1 [= <-]. by exists self.
  - intros [= <-] H2. by exists self2.
  - intros [= <-] [= <-]. by exists self.
Qed.

Section Accumulation.
Context (U : G3Units) (cos : Qc → Qc) (xoff yoff : gmap string Qc).

Local Abbreviation call := (__call__ U cos xoff yoff).
Local Abbreviation run := (Run U cos xoff yoff).
Local Abbreviation samples_of := (frame_samples U cos xoff yoff).
Local Abbreviation increments_of := (increments U cos xoff yoff).
Local Abbreviation lands := (lands_in (dec_edges U) (ra_edges U)).

(** The call adds the increments of the frame. *)
Lemma call_increments self frame :
  call self frame
  = (inc ← increments_of (det self) (timestreams self) frame;
     accumulate self inc).
Proof.
  unfold __call__, increments.
  destruct (frame !! timestreams self) as [[?|tsmap]|]; [done| |done].
  destruct (tsmap !! det self) as [ts|]; [|done].
  destruct (offset_pointing _ _ _ _ _ _) as [[y x]|e]; [|done]. simpl.
  destruct (histogram2d y x _ _ (Some ts)) as [hw|e] eqn:Hw; simpl; [|done].
  destruct (histogram2d_counts _ _ _ _ _ _ Hw) as [h ->]. simpl.
  by destruct (iadd (data self) hw).
Qed.

Lemma increments_None d ts frame :
  increments_of d ts frame = Ok None → samples_of d ts frame = [].
Proof.
  unfold increments, frame_samples.
  destruct (frame !! ts) as [[?|tsmap]|]; [done| |done].
  destruct (tsmap !! d) as [w|]; [|done].
  destruct (offset_pointing _ _ _ _ _ _) as [[y x]|e]; [|done]. simpl.
  destruct (histogram2d y x _ _ (Some w)); simpl; [|done].
  by destruct (histogram2d y x _ _ None).
Qed.

Lemma increments_Some d ts frame weighted counts :
  increments_of d ts frame = Ok (Some (weighted, counts)) →
  ∃ yx w,
    samples_of d ts frame = zip yx w ∧ length w = length yx
    ∧ weighted = bincount2 (dec_edges U) (ra_edges U) (zip yx w)
                   (zeros (ny U) (nx U))
    ∧ counts = bincount2 (dec_edges U) (ra_edges U)
                 (zip yx (replicate (length yx) 1)) (zeros (ny U) (nx U)).
Proof.
  unfold increments, frame_samples.
  destruct (frame !! ts) as [[?|tsmap]|]; [done| |done].
  destruct (tsmap !! d) as [w|]; [|done].
  destruct (offset_pointing _ _ _ _ _ _) as [[y x]|e]; [|done]. simpl.
  destruct (histogram2d y x _ _ (Some w)) as [hw|] eqn:Hw; simpl; [|done].
  destruct (histogram2d y x _ _ None) as [h|] eqn:Hh; simpl; [|done].
  intros [= <- <-].
  apply histogram2d_Ok in Hw as (Hlen & w' & [Hzw Hlw] & ->).
  apply histogram2d_Ok in Hh as (_ & w'' & -> & ->).
  unfold dec_edges, ra_edges. rewrite !length_edges. simpl.
  exists (zip y x), w'.
  assert (length (zip y x) = length y) as Hzip.
  { rewrite length_zip_with. lia. }
  rewrite Hzip. done.
Qed.

(** One call, seen from one pixel. *)
Lemma call_cells self frame self' i j :
  call self frame = Ok self' → (i < ny U)%nat → (j < nx U)%nat →
  let landed := filter (lands i j)
                  (samples_of (det self) (timestreams self) frame) in
  det self' = det self ∧ timestreams self' = timestreams self
  ∧ get2 (data self') i j = get2 (data self) i j + sum (snd <$> landed)
  ∧ get2 (hits self') i j = get2 (hits self) i j + Qc_of_nat (length landed).
Proof.
  intros H Hi Hj. rewrite call_increments in H.
  destruct (increments_of _ _ _) as [[[hw h]|]|e] eqn:Hinc; simpl in H;
    [| |done].
  - apply accumulate_Some in H as (Hd & Hh & ->).
    cbn [det timestreams data hits].
    destruct (increments_Some _ _ _ _ _ Hinc) as (yx & w & -> & Hlen & -> & ->).
    rewrite shape_bincount2, shape_zeros in Hd, Hh.
    destruct (cell_is_Some _ _ _ i j Hd Hi Hj) as [vd Hvd].
    destruct (cell_is_Some _ _ _ i j Hh Hi Hj) as [vh Hvh].
    unfold get2. rewrite !cell_add, !cell_bincount2, cell_zeros by done.
    rewrite Hvd, Hvh. cbn [fmap option_fmap option_map default].
    rewrite (sum_unit_weights _ _ _ _ _ w) by done.
    by rewrite !Qcplus_0_l.
  - injection H as <-. rewrite (increments_None _ _ _ Hinc). simpl.
    by rewrite Qc_of_nat_0, !Qcplus_0_r.
Qed.

Lemma call_config self frame self' :
  call self frame = Ok self' →
  det self' = det self ∧ timestreams self' = timestreams self
  ∧ shape (data self') = shape (data self)
  ∧ shape (hits self') = shape (hits self).
Proof.
  rewrite call_increments.
  destruct (increments_of _ _ _) as [inc|e]; simpl; [|done].
  apply accumulate_config.
Qed.

(** The whole run, seen from one pixel. *)
Lemma run_cells self frames self' i j :
  run self frames = Ok self' → (i < ny U)%nat → (j < nx U)%nat →
  let landed := filter (lands i j)
                  (frames ≫= samples_of (det self) (timestreams self)) in
  get2 (data self') i j = get2 (data self) i j + sum (snd <$> landed)
  ∧ get2 (hits self') i j = get2 (hits self) i j + Qc_of_nat (length landed).
Proof.
  intros H Hi Hj. revert self H.
  induction frames as [|frame frames IH]; intros self H; simpl in H.
  { injection H as <-. simpl. by rewrite Qc_of_nat_0, !Qcplus_0_r. }
  destruct (call self frame) as [self1|] eqn:Hcall; simpl in H; [|done].
  destruct (call_cells _ _ _ i j Hcall Hi Hj) as (Hdet & Hts & Hd & Hh).
  destruct (IH _ H) as [Hd' Hh']. rewrite Hdet, Hts in Hd', Hh'.
  cbv zeta. rewrite bind_cons, filter_app, fmap_app, sum_app, length_app.
  rewrite Qc_of_nat_add, Hd', Hh', Hd, Hh. split; ring.
Qed.

Lemma run_shape self frames self' :
  run self frames = Ok self' →
  shape (data self') = shape (data self)
  ∧ shape (hits self') = shape (hits self).
Proof.
  revert self. induction frames as [|frame frames IH]; intros self H;
    simpl in H.
  { by injection H as <-. }
  destruct (call self frame) as [self1|] eqn:Hcall; simpl in H; [|done].
  destruct (call_config _ _ _ Hcall) as (_ & _ & Hd & Hh).
  destruct (IH _ H) as [Hd' Hh']. by rewrite Hd', Hh'.
Qed.

(** On the notebook's grid, the samples numpy puts in a cell are those of
    the pixel's two intervals. *)
Lemma lands_in_pixel i j (s : Qc * Qc * Qc) :
  lands i j s ↔ in_bin (dec_edges U) i s.1.1 && in_bin (ra_edges U) j s.1.2.
Proof.
  unfold lands_in. rewrite andb_True.
  rewrite !bin_index_in_bin; [done|..].
  - apply edges_strictly_increasing, xlen_pos.
  - apply edges_strictly_increasing, ylen_pos.
Qed.

(** Every reachable state, seen from one pixel: the hit count is the
    number of samples in the pixel, the signal sum is their sum. *)
Lemma reachable_cells d ts frames binner i j :
  run (__init__ U d ts) frames = Ok binner →
  (i < ny U)%nat → (j < nx U)%nat →
  get2 (hits binner) i j
  = Qc_of_nat (length (pixel_samples U cos xoff yoff d ts frames i j))
  ∧ get2 (data binner) i j
    = sum (pixel_samples U cos xoff yoff d ts frames i j).
Proof.
  intros H Hi Hj. destruct (run_cells _ _ _ i j H Hi Hj) as [Hd Hh].
  unfold __init__ in Hd, Hh. cbn [det timestreams data hits] in Hd, Hh.
  unfold get2 in Hd at 2. unfold get2 in Hh at 2.
  rewrite cell_zeros in Hd, Hh by done. cbn [default] in Hd, Hh.
  rewrite Qcplus_0_l in Hd, Hh. unfold pixel_samples.
  rewrite <- (list_filter_iff _ _ _ (lands_in_pixel i j)).
  by rewrite length_fmap.
Qed.
End Accumulation.

(** *** Samples outside the grid *)

Lemma out_of_range_not_in_bin edges v i :
  strictly_increasing edges → out_of_range edges v → ¬ in_bin edges i v.
Proof.
  unfold in_bin, out_of_range. intros Hinc Hout Hin.
  destruct (edges !! i) as [lo|] eqn:Hlo; [|done].
  destruct (edges !! S i) as [hi|] eqn:Hhi; [|done].
  pose proof (lookup_lt_Some _ _ _ Hhi) as Hlen.
  rewrite head_lookup, last_lookup in Hout.
  destruct (lookup_lt_is_Some_2 edges 0) as [l0 H0]; [lia|].
  destruct (lookup_lt_is_Some_2 edges (pred (length edges))) as [l1 H1]; [lia|].
  rewrite H0, H1 in Hout.
  apply andb_prop_elim in Hin as [Hle Hhigh]. apply bool_decide_unpack in Hle.
  assert (v ≤ hi) as Hvhi.
  { apply orb_prop_elim in Hhigh as [Hlt|[Heq _]%andb_prop_elim].
    - apply bool_decide_unpack in Hlt. by apply Qclt_le_weak.
    - apply bool_decide_unpack in Heq. subst. apply Qcle_refl. }
  assert (l0 ≤ lo) as Hl0.
  { eapply (strictly_increasing_le edges 0 i); [done|lia|done..]. }
  assert (hi ≤ l1) as Hl1.
  { eapply (strictly_increasing_le edges (S i)); [done| |done..]. lia. }
  apply orb_prop_elim in Hout as [Hlt|Hlt]; apply bool_decide_unpack in Hlt;
    apply Qclt_nge in Hlt; apply Hlt.
  - by trans lo.
  - by trans hi.
Qed.

Lemma out_of_range_bin_index edges v :
  strictly_increasing edges → out_of_range edges v → bin_index edges v = None.
Proof.
  intros Hinc Hout. destruct (bin_index edges v) as [i|] eqn:Hbin; [|done].
  apply bin_index_in_bin in Hbin; [|done].
  by destruct (out_of_range_not_in_bin edges v i).
Qed.

(** Samples without a bin leave the histogram as it is. *)
Lemma bincount2_outliers ey ex (l : list (Qc * Qc * Qc)) h :
  Forall (λ p, bin_index ey p.1 = None ∨ bin_index ex p.2 = None) (l.*1) →
  bincount2 ey ex l h = h.
Proof.
  revert h. induction l as [|[[y x] w] l IH]; intros h; simpl; [done|].
  intros [Hp Hl]%Forall_cons. simpl in Hp. rewrite IH by done.
  destruct Hp as [->| ->]; [done|]. by destruct (bin_index ey y).
Qed.

Section Stream.
Context (U : G3Units) (cos : Qc → Qc) (xoff yoff : gmap string Qc).

Local Abbreviation call := (__call__ U cos xoff yoff).
Local Abbreviation run := (Run U cos xoff yoff).
Local Abbreviation samples_of := (frame_samples U cos xoff yoff).
Local Abbreviation increments_of := (increments U cos xoff yoff).
Local Abbreviation pixel := (pixel_samples U cos xoff yoff).

Lemma run_config self frames self' :
  run self frames = Ok self' →
  det self' = det self ∧ timestreams self' = timestreams self.
Proof.
  revert self. induction frames as [|frame frames IH]; intros self H;
    simpl in H.
  { by injection H as <-. }
  destruct (call self frame) as [self1|] eqn:Hcall; simpl in H; [|done].
  destruct (call_config _ _ _ _ _ _ _ Hcall) as (Hd & Ht & _).
  destruct (IH _ H) as [Hd' Ht']. by rewrite Hd', Ht'.
Qed.

Lemma run_two_swap binner A B final :
  run binner [A; B] = Ok final → run binner [B; A] = Ok final.
Proof.
  simpl. intros H.
  destruct (call binner A) as [bA|] eqn:HA; simpl in H; [|done].
  destruct (call bA B) as [bAB|] eqn:HB; simpl in H; [|done].
  injection H as ->.
  destruct (call_config _ _ _ _ _ _ _ HA) as (Hd & Ht & _).
  rewrite call_increments in HA, HB. rewrite Hd, Ht in HB.
  destruct (increments_of _ _ A) as [incA|] eqn:HincA; simpl in HA; [|done].
  destruct (increments_of _ _ B) as [incB|] eqn:HincB; simpl in HB; [|done].
  destruct (accumulate_swap _ _ _ _ _ HA HB) as (bB & HB' & HA').
  destruct (accumulate_config _ _ _ HB') as (Hd' & Ht' & _).
  rewrite call_increments, HincB. simpl. rewrite HB'. simpl.
  rewrite call_increments, Hd', Ht', HincA. simpl. by rewrite HA'.
Qed.

(** Increasing edges pass numpy's check of the bins. *)
Lemma monotonic_strictly_increasing edges :
  strictly_increasing edges → monotonic edges = true.
Proof.
  induction edges as [|a edges IH]; [done|].
  intros Hinc. destruct edges as [|b edges]; [done|].
  cbn [monotonic]. apply andb_true_intro. split.
  - apply bool_decide_eq_true_2, Qclt_le_weak.
    apply (Hinc 0%nat 1%nat); [lia|done..].
  - apply IH. intros i j x y Hij Hi Hj.
    apply (Hinc (S i) (S j)); [lia|done..].
Qed.

Lemma histogram2d_well_formed y x weights :
  length x = length y →
  match weights with Some w => length w = length y | None => True end →
  ∃ h, histogram2d y x (dec_edges U) (ra_edges U) weights = Ok h
       ∧ shape h = replicate (ny U) (nx U).
Proof.
  intros Hxy Hw. unfold histogram2d.
  rewrite decide_False by (by intros ?).
  rewrite !monotonic_strictly_increasing.
  - cbn [andb negb].
    destruct weights as [w|].
    + destruct (decide (y = [])); [|rewrite decide_True by done];
        cbn [mbind result_bind]; (eexists; split; [done|]);
        rewrite shape_bincount2, shape_zeros;
        unfold dec_edges, ra_edges; by rewrite !length_edges.
    + cbn [mbind result_bind]. eexists.
      split; [done|]. rewrite shape_bincount2, shape_zeros.
      unfold dec_edges, ra_edges. by rewrite !length_edges.
  - apply edges_strictly_increasing, xlen_pos.
  - apply edges_strictly_increasing, ylen_pos.
Qed.

(** A well-formed frame is ingested without an exception. *)
Lemma call_well_formed self frame :
  shape (data self) = replicate (ny U) (nx U) →
  shape (hits self) = replicate (ny U) (nx U) →
  well_formed xoff yoff (det self) (timestreams self) frame →
  ∃ self', call self frame = Ok self'.
Proof.
  intros Hd Hh Hwf. unfold __call__.
  destruct Hwf as [->|(tsmap & -> & Hwf)]; [by eexists|].
  destruct Hwf as [->|Hwf]; [by eexists|].
  destruct Hwf as (ts & dec & ra & -> & Hdec & Hra & Hld & Hlr & [xo Hx] & [dy Hy]).
  rewrite (offset_pointing_ok _ _ _ _ _ _ _ _ _ _ Hy Hx Hdec Hra) by congruence.
  cbn [mbind result_bind].
  destruct (histogram2d_well_formed
              ((λ v, v - dy) <$> dec)
              (zip_with (λ r v, r + xo / cos ((v - dy) / Qp_to_Qc (rad U)))
                 ra dec)
              (Some ts)) as (hw & -> & Hsw).
  { rewrite length_zip_with, length_fmap. lia. }
  { by rewrite length_fmap. }
  destruct (histogram2d_well_formed
              ((λ v, v - dy) <$> dec)
              (zip_with (λ r v, r + xo / cos ((v - dy) / Qp_to_Qc (rad U)))
                 ra dec)
              None) as (h & -> & Hsh).
  { rewrite length_zip_with, length_fmap. lia. }
  { done. }
  cbn [mbind result_bind]. unfold iadd.
  rewrite decide_True by congruence. cbn [mbind result_bind].
  rewrite decide_True by congruence. by eexists.
Qed.

Lemma run_well_formed self frames :
  shape (data self) = replicate (ny U) (nx U) →
  shape (hits self) = replicate (ny U) (nx U) →
  Forall (well_formed xoff yoff (det self) (timestreams self)) frames →
  ∃ self', run self frames = Ok self'.
Proof.
  intros Hd Hh Hwf. revert self Hd Hh Hwf.
  induction frames as [|frame frames IH]; intros self Hd Hh Hwf.
  { by eexists. }
  apply Forall_cons in Hwf as [Hframe Hwf].
  destruct (call_well_formed self frame Hd Hh Hframe) as [self1 Hcall].
  cbn [Run]. rewrite Hcall. cbn [mbind result_bind].
  destruct (call_config _ _ _ _ _ _ _ Hcall) as (Hdet & Hts & Hd1 & Hh1).
  apply IH; [congruence|congruence|]. by rewrite Hdet, Hts.
Qed.


(** C10.  In every state reached from the zero-initialised grids, a pixel
    with no hits has a signal sum of zero.  A pointing outside the range of
    the edges lies in no pixel, and a frame whose samples all point outside
    the grid changes neither [data] nor [hits]. *)
Theorem zero_hits_zero_signal d ts frames binner :
  Run U cos xoff yoff (__init__ U d ts) frames = Ok binner →
  (∀ i j, (i < ny U)%nat → (j < nx U)%nat →
     get2 (hits binner) i j = 0 → get2 (data binner) i j = 0)
  ∧ (∀ y x i j,
       out_of_range (dec_edges U) y || out_of_range (ra_edges U) x →
       in_bin (dec_edges U) i y && in_bin (ra_edges U) j x = false)
  ∧ (∀ frame binner',
       __call__ U cos xoff yoff binner frame = Ok binner' →
       (∀ s, s ∈ frame_samples U cos xoff yoff d ts frame →
          out_of_range (dec_edges U) s.1.1
          || out_of_range (ra_edges U) s.1.2) →
       data binner' = data binner ∧ hits binner' = hits binner).
Proof.
  intros Hrun.
  pose proof (edges_strictly_increasing (ylen U) (dec0 U) (ny U) (ylen_pos U))
    as Hdec.
  pose proof (edges_strictly_increasing (xlen U) (ra0 U) (nx U) (xlen_pos U))
    as Hra.
  fold (dec_edges U) in Hdec. fold (ra_edges U) in Hra.
  split; [|split].
  - intros i j Hi Hj Hzero.
    destruct (reachable_cells _ _ _ _ _ _ _ _ _ _ Hrun Hi Hj) as [Hh Hd].
    rewrite Hh in Hzero. apply Qc_of_nat_eq_0, nil_length_inv in Hzero.
    by rewrite Hd, Hzero.
  - intros y x i j [Hy|Hx]%orb_True.
    + apply andb_false_iff. left. apply not_true_is_false.
      intros Hin. apply (out_of_range_not_in_bin _ _ i Hdec Hy).
      by rewrite Hin.
    + apply andb_false_iff. right. apply not_true_is_false.
      intros Hin. apply (out_of_range_not_in_bin _ _ j Hra Hx).
      by rewrite Hin.
  - intros frame binner' Hcall Hout.
    destruct (run_config _ _ _ Hrun) as [Hd Ht]. simpl in Hd, Ht.
    rewrite call_increments, Hd, Ht in Hcall.
    destruct (increments_of d ts frame) as [[[hw h]|]|] eqn:Hinc;
      cbn [mbind result_bind] in Hcall; [| |discriminate Hcall].
    + apply accumulate_Some in Hcall as (Hsd & Hsh & ->).
      cbn [data hits].
      destruct (increments_Some _ _ _ _ _ _ _ _ _ Hinc)
        as (yx & w & Hs & Hlen & -> & ->).
      assert (Forall (λ p, bin_index (dec_edges U) p.1 = None
                           ∨ bin_index (ra_edges U) p.2 = None) yx) as Hall.
      { rewrite <- (fst_zip yx w) by lia. rewrite <- Hs.
        apply Forall_fmap, Forall_forall. intros s Hin. simpl.
        destruct (orb_prop_elim _ _ (Hout s Hin)) as [Hy|Hx].
        - left. by apply out_of_range_bin_index.
        - right. by apply out_of_range_bin_index. }
      rewrite bincount2_outliers in Hsd |- * by (by rewrite fst_zip by lia).
      rewrite bincount2_outliers in Hsh |- *
        by (by rewrite fst_zip by (rewrite length_replicate; lia)).
      rewrite shape_zeros in Hsd, Hsh.
      rewrite !add_zeros by assumption. split; reflexivity.
    + injection Hcall as <-. split; reflexivity.
Qed.
End Stream.

(** *** The filters *)

Lemma sum_sub_scalar (l : list Qc) (m : Qc) :
  sum (sub_scalar l m) = sum l - Qc_of_nat (length l) * m.
Proof.
  unfold sub_scalar. induction l as [|v l IH].
  - cbn. rewrite Qc_of_nat_0. ring.
  - rewrite fmap_cons, length_cons, Qc_of_nat_S. cbn [sum foldr].
    fold (sum ((λ v, v - m) <$> l)). fold (sum l). rewrite IH. ring.
Qed.

Lemma sum_replicate (n : nat) (b : Qc) : sum (replicate n b) = Qc_of_nat n * b.
Proof.
  induction n as [|n IH].
  - cbn. rewrite Qc_of_nat_0. ring.
  - rewrite Qc_of_nat_S. cbn [replicate sum foldr].
    fold (sum (replicate n b)). rewrite IH. ring.
Qed.

Lemma sub_scalar_0 (l : list Qc) : sub_scalar l 0 = l.
Proof.
  unfold sub_scalar. rewrite <- (list_fmap_id l) at 2.
  apply list_fmap_ext. intros _ v _. simpl. ring.
Qed.

Lemma mean_cons v l :
  mean (v :: l) = Some (sum (v :: l) / Qc_of_nat (length (v :: l))).
Proof. done. Qed.

(** After the mean is subtracted, the mean is zero. *)
Lemma mean_sub_scalar_mean v l m :
  mean (v :: l) = Some m → mean (sub_scalar (v :: l) m) = Some 0.
Proof.
  rewrite mean_cons. intros [= <-].
  change (sub_scalar (v :: l) ?m) with ((v - m) :: sub_scalar l m).
  rewrite mean_cons. f_equal.
  change ((v - ?m) :: sub_scalar l ?m) with (sub_scalar (v :: l) m).
  rewrite sum_sub_scalar. unfold sub_scalar. rewrite length_fmap.
  pose proof (Qc_of_nat_S_neq_0 (length l)) as Hn.
  change (length (v :: l)) with (S (length l)).
  change (sum (v :: l)) with (v + sum l).
  by field.
Qed.

Lemma mean_filter_twice (samples : list Qc) :
  Filters.MeanFilter (Filters.MeanFilter samples) = Filters.MeanFilter samples
  ∧ ∀ m, mean (Filters.MeanFilter samples) = Some m → m = 0.
Proof.
  destruct samples as [|v l]; [done|].
  unfold Filters.MeanFilter at 2 3 4.
  destruct (mean (v :: l)) as [m|] eqn:Hm; [|done].
  pose proof (mean_sub_scalar_mean _ _ _ Hm) as H0.
  unfold Filters.MeanFilter. rewrite H0. split.
  - apply sub_scalar_0.
  - by intros m' [= <-].
Qed.

(** C8.  Applying [MeanFilter] to a record twice gives the same as applying
    it once, for every detector: after one application the mean of a
    detector's samples, where there is one, is zero, and the second
    subtraction changes nothing. *)
Theorem mean_filter_idempotent (record : gmap string (list Qc)) :
  Filters.MeanFilterRecord (Filters.MeanFilterRecord record)
  = Filters.MeanFilterRecord record
  ∧ (∀ samples,
       Filters.MeanFilter (Filters.MeanFilter samples)
       = Filters.MeanFilter samples)
  ∧ (∀ d samples m,
       Filters.MeanFilterRecord record !! d = Some samples →
       mean samples = Some m → m = 0).
Proof.
  split; [|split].
  - unfold Filters.MeanFilterRecord. rewrite <- map_fmap_compose.
    apply map_fmap_ext. intros d samples _. apply mean_filter_twice.
  - intros samples. apply mean_filter_twice.
  - intros d samples m. unfold Filters.MeanFilterRecord.
    rewrite lookup_fmap. destruct (record !! d) as [raw|]; [|done].
    intros [= <-]. apply mean_filter_twice.
Qed.

Section MaskedFilter.
Context (distance : Qc * Qc → Qc * Qc → Qc).

Local Abbreviation unmasked := (Filters.unmasked distance).
Local Abbreviation masked_mean := (Filters.masked_mean distance).
Local Abbreviation MaskedMeanFilter := (Filters.MaskedMeanFilter distance).
Local Abbreviation spiked := Filters.spiked.

Lemma spiked_lookup_ne b s k n i v :
  i ≠ k → spiked b s k n !! i = Some v → v = b.
Proof.
  unfold Filters.spiked. intros Hne.
  rewrite list_lookup_insert_ne by done.
  by intros [-> _]%lookup_replicate.
Qed.

Lemma sum_spiked b s k n :
  (k < n)%nat → sum (spiked b s k n) = Qc_of_nat n * b + s.
Proof.
  intros Hk. unfold Filters.spiked. rewrite insert_replicate_lt by done.
  rewrite sum_app. cbn [sum foldr]. fold (sum (replicate (n - S k) b)).
  rewrite !sum_replicate.
  assert (Qc_of_nat n = Qc_of_nat k + (1 + Qc_of_nat (n - S k))) as ->.
  { rewrite <- Qc_of_nat_S, <- Qc_of_nat_add. f_equal. lia. }
  ring.
Qed.

(** With the spike masked, the samples the mean is taken over are
    background samples, and there is at least one. *)
Lemma unmasked_background b s k n pointing center radius :
  (∀ p, pointing !! k = Some p → distance p center ≤ radius) →
  (∃ j q, pointing !! j = Some q ∧ (j < n)%nat ∧ radius < distance q center) →
  ∃ m, unmasked (spiked b s k n) pointing center radius = replicate (S m) b.
Proof.
  intros Hspike (j & q & Hq & Hj & Hfar).
  set (l := unmasked (spiked b s k n) pointing center radius).
  assert (Forall (eq b) l) as Hall.
  { apply Forall_forall. intros v Hv. unfold l, Filters.unmasked in Hv.
    apply list_elem_of_fmap in Hv as ([v' p] & -> & Hin).
    apply list_elem_of_filter in Hin as [Hp Hin]. simpl in *.
    apply list_elem_of_lookup in Hin as [i Hi].
    apply lookup_zip_with_Some in Hi as (v'' & p' & [= <- <-] & Hv & Hp').
    symmetry. apply (spiked_lookup_ne b s k n i); [|done].
    intros ->. apply Qclt_nge in Hp. by apply Hp, Hspike. }
  assert (b ∈ l) as Hin.
  { unfold l, Filters.unmasked.
    apply list_elem_of_fmap. exists (b, q). split; [done|].
    apply list_elem_of_filter. split; [done|].
    apply list_elem_of_lookup. exists j.
    apply lookup_zip_with_Some. exists b, q. split; [done|]. split; [|done].
    assert (j ≠ k) as Hne.
    { intros ->. apply Qclt_nge in Hfar. by apply Hfar, Hspike. }
    unfold Filters.spiked. rewrite list_lookup_insert_ne by done.
    by apply lookup_replicate_2. }
  destruct l as [|v l'] eqn:Hl; [by apply elem_of_nil in Hin|].
  exists (length l'). symmetry. apply replicate_as_Forall. by split.
Qed.

(** C9, as the model has it.  For a record of [n] samples that is a
    constant background [b] plus one spike of height [s] whose pointing
    lies within [radius] of [center], and that has at least one sample
    outside the mask: the masked mean is [b] exactly, whatever [s] is; it is
    subtracted from all the samples, the masked ones included; the unmasked
    mean is [b + s / n]. *)
Theorem masked_mean_is_background b s k n pointing center radius :
  (k < n)%nat → length pointing = n →
  (∀ p, pointing !! k = Some p → distance p center ≤ radius) →
  (∃ j q, pointing !! j = Some q ∧ radius < distance q center) →
  Filters.masked_mean distance (Filters.spiked b s k n) pointing center radius
  = Some b
  ∧ Filters.MaskedMeanFilter distance (Filters.spiked b s k n) pointing center
      radius
    = Some (sub_scalar (Filters.spiked b s k n) b)
  ∧ mean (Filters.spiked b s k n) = Some (b + s / Qc_of_nat n).
Proof.
  intros Hk Hlen Hspike (j & q & Hq & Hfar).
  assert (masked_mean (spiked b s k n) pointing center radius = Some b) as Hm.
  { destruct (unmasked_background b s k n pointing center radius Hspike)
      as [m Hu].
    { exists j, q. split; [done|]. split; [|done].
      apply lookup_lt_Some in Hq. lia. }
    unfold Filters.masked_mean. rewrite Hu.
    change (replicate (S m) b) with (b :: replicate m b). rewrite mean_cons.
    change (b :: replicate m b) with (replicate (S m) b).
    rewrite sum_replicate, length_replicate. f_equal.
    pose proof (Qc_of_nat_S_neq_0 m). by field. }
  split; [done|]. split.
  - unfold Filters.MaskedMeanFilter. by rewrite Hm.
  - destruct (spiked b s k n) as [|v l] eqn:Hs.
    { apply (f_equal length) in Hs. unfold Filters.spiked in Hs.
      rewrite length_insert, length_replicate in Hs. simpl in Hs. lia. }
    rewrite mean_cons, <- Hs, sum_spiked by done.
    unfold Filters.spiked. rewrite length_insert, length_replicate. f_equal.
    destruct n as [|n']; [lia|]. pose proof (Qc_of_nat_S_neq_0 n'). by field.
Qed.
End MaskedFilter.

(** ** The properties on the small instance *)

(** a frame that carries the detector is well-formed when its three
    timestreams have one length and the detector has its offsets *)
Lemma well_formed_scan xoff yoff (frame : G3Frame) tsmap ts dec ra :
  frame !! default_timestreams = Some (G3TimestreamMap tsmap) →
  tsmap !! det0 = Some ts →
  frame !! "BoresightDec" = Some (G3Timestream dec) →
  frame !! "BoresightRa" = Some (G3Timestream ra) →
  length dec = length ts → length ra = length ts →
  is_Some (xoff !! det0) → is_Some (yoff !! det0) →
  well_formed xoff yoff det0 default_timestreams frame.
Proof.
  intros. right. exists tsmap. split; [done|]. right.
  by exists ts, dec, ra.
Qed.

Lemma frames0_well_formed :
  Forall (well_formed offsets0 offsets0 det0 default_timestreams) frames0.
Proof.
  repeat apply Forall_cons_2; [| | | |apply Forall_nil_2].
  - by eapply well_formed_scan.
  - by left.
  - by eapply well_formed_scan.
  - by eapply well_formed_scan.
Qed.


Lemma pointing_reconstruction_witness :
  ∃ y x, offset_pointing U0 cos0 offsets0 offsets0 det0 scan0 = Ok (y, x)
         ∧ y !! 2%nat = Some (dec0 U0 + lit 3 8 - lit 1 8)
         ∧ x !! 2%nat
           = Some (ra0 U0 + lit 1 8
                   + lit 1 8 / cos0 ((dec0 U0 + lit 3 8 - lit 1 8)
                                     / Qp_to_Qc (rad U0))).
Proof.
  destruct (pointing_reconstruction U0 cos0 offsets0 offsets0 det0 scan0
              dec_samples0 ra_samples0 (lit 1 8) (lit 1 8))
    as (y & x & Hp & _ & _ & Hk & _).
  - reflexivity.
  - reflexivity.
  - reflexivity.
  - reflexivity.
  - reflexivity.
  - exists y, x. split; [exact Hp|].
    apply (Hk 2%nat (dec0 U0 + lit 3 8) (ra0 U0 + lit 1 8)); reflexivity.
Defined.

Lemma zero_offset_pointing_witness :
  offset_pointing U0 cos0 zero_offsets zero_offsets det0 scan0
  = Ok (dec_samples0, ra_samples0).
Proof.
  apply (zero_offset_pointing U0 cos0 zero_offsets zero_offsets det0 scan0);
    reflexivity.
Defined.

Lemma skipped_frame_is_noop_witness :
  __call__ U0 cos0 offsets0 offsets0 final0 bare0 = Ok final0.
Proof.
  apply (skipped_frame_is_noop U0 cos0 offsets0 offsets0 final0 bare0).
  left. vm_compute. reflexivity.
Defined.

Lemma unknown_detector_raises_at_call_witness :
  __call__ U0 cos0 no_offsets no_offsets binner0 scan0 = Err (KeyError det0).
Proof.
  apply (λ H1 H2 H3,
           proj1 (proj2 (proj2 (unknown_detector_raises_at_call U0 cos0
                                  no_offsets no_offsets binner0 scan0
                                  {[ det0 := signal0 ]} signal0 H1 H2 H3)))).
  - reflexivity.
  - reflexivity.
  - left. reflexivity.
  - reflexivity.
Defined.

(** C3, as stated, fails: a binner for a detector that has no offset entry
    is constructed all the same, with its zeroed grids; a frame without the
    timestreams passes through it; the error is raised by the call on the
    first frame that carries the detector. *)
Lemma unknown_detector_not_rejected_at_construction :
  no_offsets !! det0 = None
  ∧ data (__init__ U0 det0 default_timestreams) = zeros 2 2
  ∧ __call__ U0 cos0 no_offsets no_offsets
      (__init__ U0 det0 default_timestreams) bare0
    = Ok (__init__ U0 det0 default_timestreams)
  ∧ __call__ U0 cos0 no_offsets no_offsets
      (__init__ U0 det0 default_timestreams) scan0
    = Err (KeyError det0).
Proof. repeat split; vm_compute; reflexivity. Qed.

Lemma zero_hits_zero_signal_witness :
  get2 (data final0) 0 1 = 0
  ∧ data final0 = [[0; 0]; [lit 47 1; lit 77 1]]
  ∧ ∀ binner', __call__ U0 cos0 offsets0 offsets0 final0 far0 = Ok binner' →
               data binner' = data final0 ∧ hits binner' = hits final0.
Proof.
  destruct (zero_hits_zero_signal U0 cos0 offsets0 offsets0 det0
              default_timestreams frames0 final0) as (Hzero & _ & Hfar).
  { vm_compute. reflexivity. }
  split; [|split].
  - apply Hzero; vm_compute; [lia|lia|reflexivity].
  - vm_compute. reflexivity.
  - intros binner' Hcall. apply (Hfar far0 binner' Hcall).
    intros s Hs. vm_compute in Hs.
    apply elem_of_cons in Hs as [->|Hs]; [vm_compute; exact I|].
    apply elem_of_cons in Hs as [->|Hs]; [vm_compute; exact I|].
    apply elem_of_nil in Hs. destruct Hs.
Defined.

Lemma mean_filter_idempotent_witness :
  ∃ samples,
    Filters.MeanFilterRecord {[ det0 := signal0 ]} !! det0 = Some samples
    ∧ mean samples = Some 0.
Proof.
  exists (Filters.MeanFilter signal0). split; [reflexivity|].
  destruct (mean (Filters.MeanFilter signal0)) as [m|] eqn:Hm.
  - f_equal.
    apply (proj2 (proj2 (mean_filter_idempotent {[ det0 := signal0 ]}))
             det0 (Filters.MeanFilter signal0) m); [reflexivity|exact Hm].
  - vm_compute in Hm. discriminate Hm.
Defined.

Lemma masked_mean_is_background_witness :
  Filters.masked_mean separation0 (Filters.spiked 1 (lit 5 1) 1 3)
    pointing0 origin 1 = Some 1
  ∧ mean (Filters.spiked 1 (lit 5 1) 1 3) = Some (1 + lit 5 1 / Qc_of_nat 3).
Proof.
  destruct (masked_mean_is_background separation0 1 (lit 5 1) 1 3 pointing0
              origin 1) as (Hm & _ & Hu).
  - lia.
  - reflexivity.
  - intros p [= <-]. vm_compute. discriminate.
  - exists 0%nat, (lit 3 1, 0). split; [reflexivity|]. vm_compute. reflexivity.
  - split; [exact Hm|exact Hu].
Defined.

(** C9, as stated, fails when no sample of the record lies outside the
    mask: there is then no restricted mean, whatever the background is. *)
Lemma masked_mean_needs_an_unmasked_sample :
  Filters.spiked 1 (lit 5 1) 1 3 = [1; 1 + lit 5 1; 1]
  ∧ (∀ p, p ∈ [origin; origin; origin] → separation0 p origin ≤ 1)
  ∧ Filters.masked_mean separation0 (Filters.spiked 1 (lit 5 1) 1 3)
      [origin; origin; origin] origin 1 ≠ Some 1
  ∧ Filters.MaskedMeanFilter separation0 (Filters.spiked 1 (lit 5 1) 1 3)
      [origin; origin; origin] origin 1 = None.
Proof.
  split; [reflexivity|]. split; [|split].
  - intros p Hp. assert (p = origin) as ->.
    { repeat (apply elem_of_cons in Hp as [->|Hp]; [done|]).
      by apply elem_of_nil in Hp. }
    vm_compute. discriminate.
  - vm_compute. discriminate.
  - vm_compute. reflexivity.
Qed.

(** ** More properties of the code *)

(** *** The grid *)

Lemma lit_2 : lit 2 1 = 1 + 1.
Proof. by apply Qc_is_canon. Qed.

Lemma two_neq_0 : (1 + 1 : Qc) ≠ 0.
Proof. done. Qed.

Lemma lookup_edges len center n i :
  (i ≤ S n)%nat →
  edges len center (S n) !! i
  = Some (- len / lit 2 1 + Qc_of_nat i * (len / Qc_of_nat (S n)) + center).
Proof.
  intros Hi. unfold edges, add_scalar.
  rewrite Nat.add_1_r, list_lookup_fmap, lookup_linspace by done.
  simpl. f_equal. pose proof (Qc_of_nat_S_neq_0 n). pose proof two_neq_0.
  rewrite lit_2. by field.
Qed.

(** Consecutive edges are one pixel width apart. *)
Lemma edges_step len center N i a b :
  edges len center N !! i = Some a →
  edges len center N !! S i = Some b →
  b - a = len / Qc_of_nat N.
Proof.
  intros Ha Hb.
  pose proof (lookup_lt_Some _ _ _ Hb) as Hlen. rewrite length_edges in Hlen.
  destruct N as [|n]; [lia|].
  pose proof two_neq_0 as H2.
  pose proof (Qc_of_nat_S_neq_0 n) as Hn.
  rewrite lookup_edges in Ha by lia. rewrite lookup_edges in Hb by lia.
  simplify_eq. rewrite Qc_of_nat_S. by field.
Qed.


(** Python's [int] of a non-negative number is its floor. *)
Lemma int_floor (q : Qc) :
  0 ≤ q → Qc_of_Z (int q) ≤ q ∧ q < Qc_of_Z (int q) + 1.
Proof.
  intros Hq. unfold int.
  assert (0 ≤ Qnum q)%Z as Hnum.
  { unfold Qcle, Qle in Hq. simpl in Hq. lia. }
  rewrite Z.quot_div_nonneg by lia.
  rewrite <- Z2Qc_inj_1, <- Z2Qc_inj_add.
  unfold Qcle, Qclt, Qle, Qlt. simpl.
  pose proof (Z.mul_div_le (Qnum q) (Z.pos (Qden q)) ltac:(lia)).
  pose proof (Z.mul_succ_div_gt (Qnum q) (Z.pos (Qden q)) ltac:(lia)).
  split; lia.
Qed.

Lemma bin_count_floor (len step : Qc) :
  0 < len → 0 < step →
  let n := Z.to_nat (int (len / step)) in
  Qc_of_nat n * step ≤ len ∧ len < (Qc_of_nat n + 1) * step.
Proof.
  intros Hlen Hstep n.
  assert (0 ≤ len / step) as Hq.
  { apply Qclt_le_weak, Qcmult_pos_pos; [done|by apply Qcinv_pos]. }
  destruct (int_floor _ Hq) as [Hlo Hhi].
  assert (Qc_of_nat n = Qc_of_Z (int (len / step))) as ->.
  { unfold Qc_of_nat, n. by rewrite Z2Nat.id by by apply int_nonneg. }
  assert (len = len / step * step) as Hmul.
  { field. by apply Qclt_not_eq in Hstep. }
  split.
  - rewrite Hmul at 2. by apply Qcmult_le_mono_nonneg_r; [apply Qclt_le_weak|].
  - rewrite Hmul at 1. by apply Qcmult_lt_mono_pos_r.
Qed.

(** X2.  Over exact rationals, the number of bins per axis is the number
    of whole pixels of size [res] that fit in the extent of the map:
    [nx * res ≤ xlen] and [xlen < (nx + 1) * res], the same along [y]; both
    axes have the same number of bins, and the grid has no pixel at all
    exactly when the map is narrower than one pixel. *)
Theorem bin_count_resolution (U : G3Units) :
  (Qc_of_nat (nx U) * res U ≤ xlen U ∧ xlen U < (Qc_of_nat (nx U) + 1) * res U)
  ∧ (Qc_of_nat (ny U) * res U ≤ ylen U
     ∧ ylen U < (Qc_of_nat (ny U) + 1) * res U)
  ∧ nx U = ny U
  ∧ (nx U = 0%nat ↔ xlen U < res U).
Proof.
  pose proof (bin_count_floor (xlen U) (res U) (xlen_pos U) (res_pos U))
    as Hx.
  pose proof (bin_count_floor (ylen U) (res U) (ylen_pos U) (res_pos U))
    as Hy.
  cbv zeta in Hx, Hy. fold (nx U) in Hx. fold (ny U) in Hy.
  split; [done|]. split; [done|]. split; [done|]. split.
  - intros H0. rewrite H0, Qc_of_nat_0 in Hx. destruct Hx as [_ Hx].
    by rewrite Qcplus_0_l, Qcmult_1_l in Hx.
  - intros Hlt. destruct (nx U) as [|n] eqn:Hn; [done|]. exfalso.
    destruct Hx as [Hx _]. apply Qclt_nge in Hlt. apply Hlt.
    etrans; [|exact Hx]. rewrite Qc_of_nat_S.
    rewrite <- (Qcmult_1_l (res U)) at 1.
    apply Qcmult_le_mono_nonneg_r; [apply Qclt_le_weak, res_pos|].
    rewrite <- (Qcplus_0_r 1) at 1. apply Qcplus_le_mono_l.
    rewrite <- Qc_of_nat_0. destruct n; [apply Qcle_refl|].
    apply Qclt_le_weak, Qc_of_nat_lt. lia.
Qed.

(** *** The pixels of the grid *)

Lemma bin_index_lt edges v i :
  bin_index edges v = Some i → (S i < length edges)%nat.
Proof.
  unfold bin_index. case_decide as Hk; [|done]. intros [= <-]. lia.
Qed.

(** A value between the first and the last edge has a bin. *)
Lemma in_range_bin_index edges v :
  strictly_increasing edges → (2 ≤ length edges)%nat →
  out_of_range edges v = false → is_Some (bin_index edges v).
Proof.
  intros Hinc Hlen Hout. unfold out_of_range in Hout.
  rewrite head_lookup, last_lookup in Hout.
  destruct (lookup_lt_is_Some_2 edges 0) as [l0 H0]; [lia|].
  destruct (lookup_lt_is_Some_2 edges (pred (length edges))) as [l1 H1]; [lia|].
  rewrite H0, H1 in Hout. apply orb_false_elim in Hout as [Hlo Hhi].
  apply bool_decide_eq_false_1, Qcle_ngt in Hlo.
  apply bool_decide_eq_false_1, Qcle_ngt in Hhi.
  pose proof (searchsorted_right_above _ _ _ _ Hinc H0 Hlo) as Hk0.
  pose proof (searchsorted_right_le edges v) as Hkle.
  unfold bin_index. rewrite last_lookup, H1.
  destruct (decide (Some l1 = Some v)) as [[= ->]|Hne].
  - pose proof (searchsorted_right_above _ _ _ _ Hinc H1 (Qcle_refl v)).
    rewrite decide_True by lia. by eexists.
  - rewrite decide_True; [by eexists|]. split; [lia|].
    destruct (decide (searchsorted_right edges v < length edges)%nat)
      as [|Hge]; [done|]. exfalso. apply Hne. f_equal.
    apply Qcle_antisym; [|done].
    apply (searchsorted_right_below edges v (pred (length edges))); [lia|done].
Qed.

(** X3.  The pixels partition the area of the map: when the grid has at
    least one bin per axis, a pointing that is not outside the range of the
    edges lies in a pixel of the grid, and no pointing lies in two
    pixels. *)
Theorem pixels_partition (U : G3Units) (y x : Qc) :
  (0 < ny U)%nat → (0 < nx U)%nat →
  (out_of_range (dec_edges U) y || out_of_range (ra_edges U) x = false →
   ∃ i j, (i < ny U)%nat ∧ (j < nx U)%nat
          ∧ in_bin (dec_edges U) i y ∧ in_bin (ra_edges U) j x)
  ∧ ∀ i j i' j',
      in_bin (dec_edges U) i y → in_bin (ra_edges U) j x →
      in_bin (dec_edges U) i' y → in_bin (ra_edges U) j' x →
      i = i' ∧ j = j'.
Proof.
  intros Hny Hnx.
  pose proof (edges_strictly_increasing (ylen U) (dec0 U) (ny U) (ylen_pos U))
    as Hdec.
  pose proof (edges_strictly_increasing (xlen U) (ra0 U) (nx U) (xlen_pos U))
    as Hra.
  fold (dec_edges U) in Hdec. fold (ra_edges U) in Hra.
  assert (length (dec_edges U) = S (ny U)) as Hld by apply length_edges.
  assert (length (ra_edges U) = S (nx U)) as Hlr by apply length_edges.
  split.
  - intros [Hy Hx]%orb_false_elim.
    destruct (in_range_bin_index _ _ Hdec ltac:(lia) Hy) as [i Hi].
    destruct (in_range_bin_index _ _ Hra ltac:(lia) Hx) as [j Hj].
    exists i, j.
    pose proof (bin_index_lt _ _ _ Hi). pose proof (bin_index_lt _ _ _ Hj).
    split; [lia|]. split; [lia|].
    split; by apply bin_index_in_bin.
  - intros i j i' j' Hi Hj Hi' Hj'.
    apply bin_index_in_bin in Hi, Hj, Hi', Hj'; [|done..].
    split; congruence.
Qed.

(** *** The binner, call by call *)

Lemma array2_ext (a b : array2) n m :
  shape a = replicate n m → shape b = replicate n m →
  (∀ i j, (i < n)%nat → (j < m)%nat → get2 a i j = get2 b i j) →
  a = b.
Proof.
  intros Ha Hb Hcells. apply list_eq. intros i.
  assert (length a = n) as Hla.
  { rewrite <- (length_fmap length a). fold (shape a).
    rewrite Ha. apply length_replicate. }
  assert (length b = n) as Hlb.
  { rewrite <- (length_fmap length b). fold (shape b).
    rewrite Hb. apply length_replicate. }
  destruct (decide (i < n)%nat) as [Hi|Hi].
  - destruct (lookup_lt_is_Some_2 a i) as [ra Hra]; [lia|].
    destruct (lookup_lt_is_Some_2 b i) as [rb Hrb]; [lia|].
    rewrite Hra, Hrb. f_equal.
    assert (length ra = m) as Hlra.
    { apply (f_equal (λ s, s !! i)) in Ha. unfold shape in Ha.
      rewrite list_lookup_fmap, Hra, lookup_replicate_2 in Ha by done.
      by injection Ha. }
    assert (length rb = m) as Hlrb.
    { apply (f_equal (λ s, s !! i)) in Hb. unfold shape in Hb.
      rewrite list_lookup_fmap, Hrb, lookup_replicate_2 in Hb by done.
      by injection Hb. }
    apply list_eq. intros j.
    destruct (decide (j < m)%nat) as [Hj|Hj].
    + specialize (Hcells i j Hi Hj). unfold get2, cell in Hcells.
      rewrite Hra, Hrb in Hcells. cbn [mbind option_bind] in Hcells.
      destruct (lookup_lt_is_Some_2 ra j) as [va Hva]; [lia|].
      destruct (lookup_lt_is_Some_2 rb j) as [vb Hvb]; [lia|].
      rewrite Hva, Hvb in Hcells |- *. cbn [default] in Hcells. by f_equal.
    + rewrite !lookup_ge_None_2 by lia. done.
  - rewrite !lookup_ge_None_2 by lia. done.
Qed.

Lemma get2_zeros n m i j : get2 (zeros n m) i j = 0.
Proof.
  unfold get2, cell, zeros.
  destruct (replicate n (replicate m 0) !! i) as [row|] eqn:Hrow; [|done].
  apply lookup_replicate in Hrow as [-> _]. cbn [mbind option_bind].
  destruct (replicate m 0 !! j) as [v|] eqn:Hv; [|done].
  by apply lookup_replicate in Hv as [-> _].
Qed.

Lemma get2_add (a b : array2) n m i j :
  shape a = replicate n m → shape b = replicate n m →
  (i < n)%nat → (j < m)%nat →
  get2 (zip_with (zip_with Qcplus) a b) i j = get2 a i j + get2 b i j.
Proof.
  intros Ha Hb Hi Hj. unfold get2. rewrite cell_add.
  destruct (cell_is_Some a _ _ i j Ha Hi Hj) as [va ->].
  by destruct (cell_is_Some b _ _ i j Hb Hi Hj) as [vb ->].
Qed.

Lemma accumulate_transfer s t inc s' :
  accumulate s inc = Ok s' →
  shape (data t) = shape (data s) → shape (hits t) = shape (hits s) →
  ∃ t', accumulate t inc = Ok t'.
Proof.
  destruct inc as [[w c]|]; [|by eexists].
  intros (Hd & Hh & _)%accumulate_Some Hsd Hsh.
  rewrite accumulate_Some_2 by congruence. by eexists.
Qed.

Section BinnerMore.
Context (U : G3Units) (cos : Qc → Qc) (xoff yoff : gmap string Qc).

Local Abbreviation call := (__call__ U cos xoff yoff).
Local Abbreviation run := (Run U cos xoff yoff).

(** X4.  What a call keeps: a call that returns leaves the detector and the
    timestream key of the binner and the shapes of [data] and [hits] as
    they were, and at every pixel the hit count grows by a whole number;
    it never decreases. *)
Theorem call_keeps_configuration_and_counts self frame self' :
  __call__ U cos xoff yoff self frame = Ok self' →
  det self' = det self ∧ timestreams self' = timestreams self
  ∧ shape (data self') = shape (data self)
  ∧ shape (hits self') = shape (hits self)
  ∧ ∀ i j, (i < ny U)%nat → (j < nx U)%nat →
      get2 (hits self) i j ≤ get2 (hits self') i j
      ∧ ∃ n : nat, get2 (hits self') i j = get2 (hits self) i j + Qc_of_nat n.
Proof.
  intros Hcall.
  destruct (call_config _ _ _ _ _ _ _ Hcall) as (Hd & Ht & Hsd & Hsh).
  repeat (split; [done|]). intros i j Hi Hj.
  destruct (call_cells _ _ _ _ _ _ _ i j Hcall Hi Hj) as (_ & _ & _ & Hh).
  cbv zeta in Hh. rewrite Hh. split; [|by eexists].
  rewrite <- (Qcplus_0_r (get2 (hits self) i j)) at 1.
  apply Qcplus_le_mono_l. rewrite <- Qc_of_nat_0.
  match goal with |- _ ≤ Qc_of_nat ?n => destruct n end;
    [apply Qcle_refl|apply Qclt_le_weak, Qc_of_nat_lt; lia].
Qed.

Lemma run_app binner frames1 frames2 :
  run binner (frames1 ++ frames2)
  = (binner1 ← run binner frames1; run binner1 frames2).
Proof.
  revert binner. induction frames1 as [|f frames1 IH]; intros binner; [done|].
  cbn [app Run]. destruct (call binner f) as [b1|e]; [|done].
  cbn [mbind result_bind]. apply IH.
Qed.

Lemma run_swap_head binner A B frames final :
  run binner (A :: B :: frames) = Ok final →
  run binner (B :: A :: frames) = Ok final.
Proof.
  intros H. change (A :: B :: frames) with ([A; B] ++ frames) in H.
  change (B :: A :: frames) with ([B; A] ++ frames).
  rewrite run_app in H |- *.
  destruct (run binner [A; B]) as [b2|] eqn:H2; [|done].
  by rewrite (run_two_swap _ _ _ _ _ _ _ _ H2).
Qed.

(** With exact sums a run over a rearrangement of the frames ends in the
    same binner. *)
Lemma run_perm binner frames frames' final :
  frames ≡ₚ frames' →
  run binner frames = Ok final →
  run binner frames' = Ok final.
Proof.
  intros Hperm. revert binner.
  induction Hperm as [|f l l' _ IH|A B l|l l' l'' _ IH1 _ IH2]; intros binner.
  - done.
  - cbn [Run]. destruct (call binner f) as [b1|]; [|done].
    cbn [mbind result_bind]. apply IH.
  - apply run_swap_head.
  - intros H. by apply IH2, IH1.
Qed.

Lemma run_transfer s t frames s' :
  run s frames = Ok s' →
  det t = det s → timestreams t = timestreams s →
  shape (data t) = shape (data s) → shape (hits t) = shape (hits s) →
  ∃ t', run t frames = Ok t'.
Proof.
  revert s t. induction frames as [|f frames IH]; intros s t H Hd Ht Hsd Hsh.
  { by eexists. }
  cbn [Run] in H |- *.
  destruct (call s f) as [s1|] eqn:Hs; [|done]. cbn [mbind result_bind] in H.
  pose proof Hs as Hs'. rewrite call_increments in Hs'.
  destruct (increments U cos xoff yoff (det s) (timestreams s) f)
    as [inc|] eqn:Hinc; [|done].
  cbn [mbind result_bind] in Hs'.
  destruct (accumulate_transfer s t inc s1 Hs' Hsd Hsh) as [t1 Ht1].
  assert (call t f = Ok t1) as Hcall.
  { rewrite call_increments, Hd, Ht, Hinc. exact Ht1. }
  rewrite Hcall. cbn [mbind result_bind].
  destruct (call_config _ _ _ _ _ _ _ Hs) as (? & ? & ? & ?).
  destruct (call_config _ _ _ _ _ _ _ Hcall) as (? & ? & ? & ?).
  apply (IH s1 t1 H); congruence.
Qed.

(** X5.  The hit map does not depend on the order of the frames: when a
    fresh binner ingests a stream of frames, it also ingests every
    rearrangement of the stream, and ends with the same [hits]. *)
Theorem hit_map_order_independent d ts frames frames' final :
  frames ≡ₚ frames' →
  Run U cos xoff yoff (__init__ U d ts) frames = Ok final →
  ∃ final',
    Run U cos xoff yoff (__init__ U d ts) frames' = Ok final'
    ∧ hits final' = hits final.
Proof.
  intros Hperm Hrun. exists final. split; [|done].
  by apply (run_perm _ frames).
Qed.

(** X6.  Hit maps add up: when a fresh binner ingests two streams one
    after the other, fresh binners also ingest each stream alone, and the
    [hits] of the first are the element-wise sums of the [hits] of the other
    two. *)
Theorem hit_maps_coadd d ts frames1 frames2 binner :
  Run U cos xoff yoff (__init__ U d ts) (frames1 ++ frames2) = Ok binner →
  ∃ binner1 binner2,
    Run U cos xoff yoff (__init__ U d ts) frames1 = Ok binner1
    ∧ Run U cos xoff yoff (__init__ U d ts) frames2 = Ok binner2
    ∧ hits binner = zip_with (zip_with Qcplus) (hits binner1) (hits binner2).
Proof.
  rewrite run_app. intros H.
  destruct (run (__init__ U d ts) frames1) as [b1|] eqn:H1; [|done].
  cbn [mbind result_bind] in H.
  destruct (run_config _ _ _ _ _ _ _ H1) as [Hd1 Ht1].
  destruct (run_shape _ _ _ _ _ _ _ H1) as [Hsd1 Hsh1].
  destruct (run_shape _ _ _ _ _ _ _ H) as [Hsd Hsh].
  destruct (run_transfer b1 (__init__ U d ts) frames2 binner H)
    as [b2 H2]; [done..|].
  destruct (run_shape _ _ _ _ _ _ _ H2) as [Hsd2 Hsh2].
  cbn [__init__ data hits det timestreams] in *.
  rewrite shape_zeros in *.
  exists b1, b2. split; [done|]. split; [done|].
  apply (array2_ext _ _ (ny U) (nx U)); [congruence| |].
    { rewrite shape_add; congruence. }
  intros i j Hi Hj.
  destruct (run_cells _ _ _ _ _ _ _ i j H Hi Hj) as [_ Hc].
  destruct (run_cells _ _ _ _ _ _ _ i j H2 Hi Hj) as [_ Hc2].
  cbv zeta in Hc, Hc2. cbn [__init__ hits det timestreams] in Hc2.
  rewrite Hd1, Ht1 in Hc. cbn [__init__ det timestreams] in Hc.
  rewrite get2_zeros in Hc2.
  rewrite (get2_add _ _ (ny U) (nx U)), Hc, Hc2 by congruence. ring.
Qed.
End BinnerMore.

(** *** Frames the binner cannot ingest *)

Section Malformed.
Context (U : G3Units) (cos : Qc → Qc) (xoff yoff : gmap string Qc).

Local Abbreviation call := (__call__ U cos xoff yoff).
Local Abbreviation run := (Run U cos xoff yoff).

Lemma histogram2d_weights_mismatch y x w :
  length x = length y → y ≠ [] → length w ≠ length y →
  histogram2d y x (dec_edges U) (ra_edges U) (Some w) = Err ValueError.
Proof.
  intros Hxy Hy Hw. unfold histogram2d.
  rewrite decide_False by (by intros ?).
  destruct (negb _); [done|]. by rewrite !decide_False.
Qed.

Lemma histogram2d_length_mismatch y x weights :
  length x ≠ length y →
  histogram2d y x (dec_edges U) (ra_edges U) weights = Err ValueError.
Proof. intros Hxy. unfold histogram2d. by rewrite decide_True. Qed.

(** X7.  A frame that carries a timestream of the target detector is not
    skipped when its pointing is missing or does not fit: without
    [BoresightDec] or [BoresightRa] the call raises the [KeyError] of that
    key; with a pointing that is not empty and a signal of another
    length, or with a [BoresightRa] that is neither as long as
    [BoresightDec] nor of length one, it raises [ValueError].  An exception
    raised by a frame ends the run, whatever frames come after it.  A
    frame whose two pointing arrays are empty is ingested, whatever the
    length of its signal, and changes nothing in a binner with grids of the
    shape of the grid. *)
Theorem malformed_frame_raises self frame tsmap ts dy xo :
  frame !! timestreams self = Some (G3TimestreamMap tsmap) →
  tsmap !! det self = Some ts →
  yoff !! det self = Some dy → xoff !! det self = Some xo →
  (frame !! "BoresightDec" = None →
   __call__ U cos xoff yoff self frame = Err (KeyError "BoresightDec"))
  ∧ (∀ dec, frame !! "BoresightDec" = Some (G3Timestream dec) →
            frame !! "BoresightRa" = None →
            __call__ U cos xoff yoff self frame = Err (KeyError "BoresightRa"))
  ∧ (∀ dec ra, frame !! "BoresightDec" = Some (G3Timestream dec) →
               frame !! "BoresightRa" = Some (G3Timestream ra) →
               dec ≠ [] →
               length ra = length dec → length ts ≠ length dec →
               __call__ U cos xoff yoff self frame = Err ValueError)
  ∧ (∀ dec ra, frame !! "BoresightDec" = Some (G3Timestream dec) →
               frame !! "BoresightRa" = Some (G3Timestream ra) →
               length ra ≠ length dec → length ra ≠ 1%nat →
               __call__ U cos xoff yoff self frame = Err ValueError)
  ∧ (∀ first before rest e,
       Run U cos xoff yoff first before = Ok self →
       __call__ U cos xoff yoff self frame = Err e →
       Run U cos xoff yoff first (before ++ frame :: rest) = Err e)
  ∧ (frame !! "BoresightDec" = Some (G3Timestream []) →
     frame !! "BoresightRa" = Some (G3Timestream []) →
     shape (data self) = replicate (ny U) (nx U) →
     shape (hits self) = replicate (ny U) (nx U) →
     __call__ U cos xoff yoff self frame = Ok self).
Proof.
  intros Hts Hdet Hy Hx.
  split; [|split; [|split; [|split; [|split]]]].
  - intros Hdec. unfold __call__, offset_pointing, asarray, getitem.
    by rewrite Hts, Hdet, Hy, Hdec.
  - intros dec Hdec Hra. unfold __call__, offset_pointing, asarray, getitem.
    rewrite Hts, Hdet, Hy, Hdec. cbn [mbind result_bind].
    by rewrite Hx, Hra.
  - intros dec ra Hdec Hra Hne Hlen Hw. unfold __call__.
    rewrite Hts, Hdet.
    rewrite (offset_pointing_ok _ _ _ _ _ _ _ _ _ _ Hy Hx Hdec Hra)
      by done.
    cbn [mbind result_bind].
    rewrite histogram2d_weights_mismatch; [done| | |].
    + rewrite length_zip_with, length_fmap. lia.
    + by destruct dec.
    + by rewrite length_fmap.
  - intros dec ra Hdec Hra Hlen H1.
    unfold __call__, offset_pointing, asarray, getitem.
    rewrite Hts, Hdet, Hy, Hdec. cbn [mbind result_bind].
    rewrite Hx, Hra. cbn [mbind result_bind]. unfold add_arrays, sub_scalar.
    rewrite decide_False by (by rewrite !length_fmap).
    destruct ra as [|r [|r' ra]]; [|done|].
    + destruct dec as [|v [|v' dec]]; [done| |done].
      cbn [fmap list_fmap mbind result_bind]. 
      by rewrite histogram2d_length_mismatch.
    + destruct dec as [|v [|v' dec]]; [done| |done].
      cbn [fmap list_fmap mbind result_bind].
      rewrite histogram2d_length_mismatch; [done|].
      cbn [length]. rewrite length_fmap. cbn [length]. lia.
  - intros first before rest e Hrun Hcall.
    rewrite run_app, Hrun. cbn [mbind result_bind Run]. by rewrite Hcall.
  - intros Hdec Hra Hsd Hsh. unfold __call__. rewrite Hts, Hdet.
    rewrite (offset_pointing_ok _ _ _ _ _ _ _ _ _ _ Hy Hx Hdec Hra)
      by done.
    cbn [fmap list_fmap zip_with mbind result_bind].
    assert (monotonic (dec_edges U) && monotonic (ra_edges U) = true)
      as Hmono.
    { rewrite !monotonic_strictly_increasing; [done|..].
      - apply edges_strictly_increasing, xlen_pos.
      - apply edges_strictly_increasing, ylen_pos. }
    unfold histogram2d.
    destruct (decide (length (@nil Qc) ≠ length (@nil Qc))) as [Hne|_];
      [by destruct Hne|].
    rewrite Hmono. cbn [negb].
    destruct (decide (@nil Qc = [])) as [_|Hne]; [|by destruct Hne].
    cbn [mbind result_bind zip_with bincount2 length replicate].
    unfold dec_edges, ra_edges. rewrite !length_edges. cbn [pred].
    unfold iadd. rewrite Hsd, Hsh, shape_zeros.
    rewrite !decide_True by done. cbn [mbind result_bind].
    rewrite !add_zeros by done. by destruct self.
Qed.
End Malformed.

(** *** Nothing is lost and nothing is counted twice *)

Lemma sum_alter_add (row : list Qc) j w :
  (j < length row)%nat → sum (alter (λ v, v + w) j row) = sum row + w.
Proof.
  revert j. induction row as [|v row IH]; intros j Hj; [simpl in Hj; lia|].
  destruct j as [|j]; cbn [alter list_alter sum foldr].
  - fold (sum row). ring.
  - fold (sum row). fold (sum (alter (λ v, v + w) j row)).
    rewrite IH by (simpl in Hj; lia). ring.
Qed.

Lemma sum_cons v (l : list Qc) : sum (v :: l) = v + sum l.
Proof. done. Qed.

Lemma total_cons row (a : array2) : total (row :: a) = sum row + total a.
Proof. done. Qed.

Lemma total_bump h i j w :
  is_Some (cell h i j) → total (bump h i j w) = total h + w.
Proof.
  unfold bump, cell. revert i.
  induction h as [|row h IH]; intros i Hc; [by destruct Hc|].
  destruct i as [|i]; cbn [alter list_alter].
  - rewrite !total_cons, sum_alter_add; [ring|].
    cbn in Hc. by apply lookup_lt_is_Some_1.
  - rewrite !total_cons. fold (alter (alter (λ v, v + w) j) i h).
    rewrite IH by done. ring.
Qed.

Lemma total_zeros n m : total (zeros n m) = 0.
Proof.
  unfold total, zeros. rewrite fmap_replicate, !sum_replicate. ring.
Qed.

Lemma sum_zip_with_add (r1 r2 : list Qc) :
  length r1 = length r2 → sum (zip_with Qcplus r1 r2) = sum r1 + sum r2.
Proof.
  revert r2. induction r1 as [|v r1 IH]; intros [|w r2] Hlen; simplify_eq/=.
  - ring.
  - fold (sum r1). fold (sum r2). fold (sum (zip_with Qcplus r1 r2)).
    rewrite IH by done. ring.
Qed.

Lemma total_add (a b : array2) :
  shape a = shape b →
  total (zip_with (zip_with Qcplus) a b) = total a + total b.
Proof.
  revert b. induction a as [|ra a IH]; intros [|rb b] Hs; simplify_eq/=.
  - unfold total. cbn. ring.
  - rewrite !total_cons, IH, sum_zip_with_add by done. ring.
Qed.

(** The weights of the samples that have a bin on both axes. *)
Lemma total_bincount2 ey ex l h :
  shape h = replicate (pred (length ey)) (pred (length ex)) →
  total (bincount2 ey ex l h)
  = total h
    + sum (snd <$> filter (λ s, is_Some (bin_index ey s.1.1)
                                ∧ is_Some (bin_index ex s.1.2)) l).
Proof.
  revert h. induction l as [|[[y x] w] l IH]; intros h Hs.
  { rewrite filter_nil. change (total h = total h + 0). ring. }
  cbn [bincount2]. rewrite filter_cons. cbn [fst snd].
  destruct (bin_index ey y) as [i|] eqn:Hy, (bin_index ex x) as [j|] eqn:Hx.
  - rewrite decide_True by (split; by eexists).
    rewrite IH by (by rewrite shape_bump).
    rewrite total_bump.
    + rewrite fmap_cons, sum_cons. cbn [snd]. symmetry. apply Qcplus_assoc.
    + apply (cell_is_Some _ _ _ _ _ Hs).
      * apply bin_index_lt in Hy. lia.
      * apply bin_index_lt in Hx. lia.
  - rewrite decide_False by (intros [_ []]; done). by apply IH.
  - rewrite decide_False by (intros [[] _]; done). by apply IH.
  - rewrite decide_False by (intros [[] _]; done). by apply IH.
Qed.

(** Counting with unit weights, for any selection by the pointing. *)
Lemma sum_unit_weights_sel (P : Qc * Qc → Prop) `{!∀ p, Decision (P p)}
    (yx : list (Qc * Qc)) (w : list Qc) :
  length w = length yx →
  sum (snd <$> filter (λ s, P s.1) (zip yx (replicate (length yx) 1)))
  = Qc_of_nat (length (filter (λ s, P s.1) (zip yx w))).
Proof.
  revert w. induction yx as [|p yx IH]; intros [|w0 w] Hlen; simplify_eq/=.
  { by rewrite Qc_of_nat_0. }
  rewrite !filter_cons. cbn [fst].
  destruct (decide (P p)).
  - rewrite fmap_cons, length_cons, Qc_of_nat_S, sum_cons. cbn [snd].
    by rewrite (IH w).
  - by apply IH.
Qed.

Section Conservation.
Context (U : G3Units) (cos : Qc → Qc) (xoff yoff : gmap string Qc).

Local Abbreviation call := (__call__ U cos xoff yoff).
Local Abbreviation run := (Run U cos xoff yoff).
Local Abbreviation binned :=
  (λ s : Qc * Qc * Qc, is_Some (bin_index (dec_edges U) s.1.1)
                        ∧ is_Some (bin_index (ra_edges U) s.1.2)).

Lemma call_totals self frame self' :
  call self frame = Ok self' →
  let landed := filter binned
                  (frame_samples U cos xoff yoff (det self) (timestreams self)
                     frame) in
  total (data self') = total (data self) + sum (snd <$> landed)
  ∧ total (hits self') = total (hits self) + Qc_of_nat (length landed).
Proof.
  intros H. rewrite call_increments in H.
  destruct (increments U cos xoff yoff _ _ _) as [[[hw h]|]|e] eqn:Hinc;
    cbn [mbind result_bind] in H; [| |discriminate H].
  - apply accumulate_Some in H as (Hd & Hh & ->).
    cbn [det timestreams data hits].
    destruct (increments_Some _ _ _ _ _ _ _ _ _ Hinc)
      as (yx & w & -> & Hlen & -> & ->).
    assert (shape (zeros (ny U) (nx U))
            = replicate (pred (length (dec_edges U)))
                (pred (length (ra_edges U)))) as Hz.
    { unfold dec_edges, ra_edges. rewrite !length_edges. apply shape_zeros. }
    cbv zeta. rewrite !total_add, !total_bincount2, total_zeros by done.
    rewrite !Qcplus_0_l. split; [done|]. f_equal.
    exact (sum_unit_weights_sel
             (λ p, is_Some (bin_index (dec_edges U) p.1)
                   ∧ is_Some (bin_index (ra_edges U) p.2)) yx w Hlen).
  - injection H as <-. rewrite (increments_None _ _ _ _ _ _ _ Hinc).
    cbn. by rewrite Qc_of_nat_0, !Qcplus_0_r.
Qed.

Lemma run_totals self frames self' :
  run self frames = Ok self' →
  let landed := filter binned
                  (frames ≫= frame_samples U cos xoff yoff (det self)
                               (timestreams self)) in
  total (data self') = total (data self) + sum (snd <$> landed)
  ∧ total (hits self') = total (hits self) + Qc_of_nat (length landed).
Proof.
  revert self. induction frames as [|frame frames IH]; intros self H.
  { injection H as <-. cbn. by rewrite Qc_of_nat_0, !Qcplus_0_r. }
  cbn [Run] in H.
  destruct (call self frame) as [self1|] eqn:Hcall; [|done].
  cbn [mbind result_bind] in H.
  destruct (call_totals _ _ _ Hcall) as [Hd Hh].
  destruct (call_config _ _ _ _ _ _ _ Hcall) as (Hdet & Hts & _).
  destruct (IH _ H) as [Hd' Hh']. rewrite Hdet, Hts in Hd', Hh'.
  cbv zeta in *. rewrite bind_cons, filter_app, fmap_app, sum_app, length_app.
  rewrite Qc_of_nat_add, Hd', Hh', Hd, Hh. split; ring.
Qed.

End Conservation.

(** *** Calibration *)

Section Items.
Context (items : gmap string (list Qc) → list (string * list Qc)).
Hypothesis items_spec : ∀ m, items m ≡ₚ map_to_list m.

Lemma items_NoDup m : NoDup (items m).*1.
Proof. rewrite items_spec. apply NoDup_fst_map_to_list. Qed.

Lemma elem_of_items m d ts : (d, ts) ∈ items m ↔ m !! d = Some ts.
Proof. rewrite items_spec. apply elem_of_map_to_list. Qed.

Lemma not_elem_of_items m d : d ∉ (items m).*1 ↔ m !! d = None.
Proof.
  rewrite items_spec, eq_None_not_Some. split.
  - intros Hd [ts Hts]. apply Hd, list_elem_of_fmap.
    exists (d, ts). split; [done|]. by apply elem_of_map_to_list.
  - intros Hd [[d' ts] [-> Hin]]%list_elem_of_fmap.
    apply elem_of_map_to_list in Hin. apply Hd. by eexists.
Qed.

End Items.

Section CalibrationProperties.
Context (cal : gmap string Qc).
Context (items : gmap string (list Qc) → list (string * list Qc)).

(** What the loop has stored when it ends. *)
Lemma calibrate_items_Ok its acc out :
  calibrate_items cal its acc = Ok out → NoDup its.*1 →
  ∀ d, (d ∉ its.*1 → out !! d = acc !! d)
       ∧ ∀ ts, (d, ts) ∈ its →
           ∃ c, cal !! d = Some c ∧ out !! d = Some ((λ v, v * c) <$> ts).
Proof.
  revert acc. induction its as [|[d0 ts0] its IH]; intros acc Hloop Hnd d.
  { injection Hloop as <-. split; [done|]. intros ts Hin.
    apply elem_of_nil in Hin. destruct Hin. }
  cbn [calibrate_items] in Hloop. unfold getitem in Hloop.
  destruct (cal !! d0) as [c0|] eqn:Hc0; [|discriminate Hloop].
  cbn [mbind result_bind] in Hloop.
  rewrite fmap_cons in Hnd. apply NoDup_cons in Hnd as [Hd0 Hnd].
  pose proof (IH _ Hloop Hnd) as IH'. split.
  - rewrite fmap_cons. intros Hd. apply not_elem_of_cons in Hd as [Hne Hd].
    rewrite (proj1 (IH' d) Hd). by apply lookup_insert_ne.
  - intros ts [Heq|Hin]%elem_of_cons.
    + injection Heq as -> ->. exists c0. split; [done|].
      rewrite (proj1 (IH' d0) Hd0). apply lookup_insert_eq.
    + by apply (proj2 (IH' d)).
Qed.

(** When the loop raises. *)
Lemma calibrate_items_Err its acc e :
  calibrate_items cal its acc = Err e →
  ∃ d, e = KeyError d ∧ d ∈ its.*1 ∧ cal !! d = None.
Proof.
  revert acc. induction its as [|[d0 ts0] its IH]; intros acc Hloop.
  { discriminate Hloop. }
  cbn [calibrate_items] in Hloop. unfold getitem in Hloop.
  destruct (cal !! d0) as [c0|] eqn:Hc0; cbn [mbind result_bind] in Hloop.
  - destruct (IH _ Hloop) as (d & -> & Hin & Hd). exists d.
    split; [done|]. split; [|done]. rewrite fmap_cons. by right.
  - injection Hloop as <-. exists d0. split; [done|]. split; [|done].
    rewrite fmap_cons. by left.
Qed.

Lemma calibrate_items_complete its acc :
  (∀ d, d ∈ its.*1 → is_Some (cal !! d)) →
  ∃ out, calibrate_items cal its acc = Ok out.
Proof.
  intros Hall. destruct (calibrate_items cal its acc) as [out|e] eqn:Hloop.
  - by exists out.
  - destruct (calibrate_items_Err _ _ _ Hloop) as (d & _ & Hin & Hd).
    destruct (Hall d Hin) as [c Hc]. rewrite Hc in Hd. discriminate Hd.
Qed.

(** X9.  What [Calibrate] stores, for a frame that has no [CalTimestreams]
    yet: a frame without [RawTimestreams] is passed on unchanged; otherwise
    a returning call adds the one key [CalTimestreams] to the frame and
    leaves every other key, the raw timestreams included, as it was, and
    the stored map has exactly the detectors of the raw map, each with its
    samples multiplied by the detector's calibration constant. *)
Theorem calibrate_output (frame frame' : G3Frame) :
  (∀ m, items m ≡ₚ map_to_list m) →
  frame !! "CalTimestreams" = None →
  Calibrate cal items frame = Ok frame' →
  match frame !! "RawTimestreams" with
  | None => frame' = frame
  | Some raw =>
      ∃ ts_in ts_out,
        raw = G3TimestreamMap ts_in
        ∧ frame' !! "CalTimestreams" = Some (G3TimestreamMap ts_out)
        ∧ (∀ key, key ≠ "CalTimestreams" → frame' !! key = frame !! key)
        ∧ ∀ d, match ts_in !! d with
               | None => ts_out !! d = None
               | Some ts =>
                   ∃ c, cal !! d = Some c
                        ∧ ts_out !! d = Some ((λ v, v * c) <$> ts)
               end
  end.
Proof.
  intros Hitems Hnone Hcal. unfold Calibrate, setitem in Hcal.
  destruct (frame !! "RawTimestreams") as [[?|ts_in]|];
    [discriminate Hcal| |by injection Hcal as <-].
  destruct (calibrate_items cal (items ts_in) ∅) as [ts_out|] eqn:Hloop;
    [|discriminate Hcal].
  cbn [mbind result_bind] in Hcal. rewrite Hnone in Hcal.
  injection Hcal as <-.
  exists ts_in, ts_out. split; [done|]. split; [apply lookup_insert_eq|].
  split; [intros key Hkey; by apply lookup_insert_ne|].
  intros d.
  pose proof (calibrate_items_Ok _ _ _ Hloop (items_NoDup _ Hitems _) d)
    as [Hout Hin].
  destruct (ts_in !! d) as [ts|] eqn:Hd.
  - apply Hin. by apply (elem_of_items _ Hitems).
  - rewrite Hout by (by apply (not_elem_of_items _ Hitems)). apply lookup_empty.
Qed.

(** X10.  When the loop form of [Calibrate] raises, on a frame with a raw
    timestream map.  If a detector of the map, the mapped one or not, has
    no calibration constant, the call raises the [KeyError] of a detector
    of the map that has none.  If every detector of the map has a constant,
    the call returns when the frame has no [CalTimestreams] yet, and raises
    [RuntimeError] when it has. *)
Theorem calibrate_needs_every_constant (frame : G3Frame) ts_in :
  (∀ m, items m ≡ₚ map_to_list m) →
  frame !! "RawTimestreams" = Some (G3TimestreamMap ts_in) →
  ((∃ d, is_Some (ts_in !! d) ∧ cal !! d = None) →
   ∃ d, Calibrate cal items frame = Err (KeyError d)
        ∧ is_Some (ts_in !! d) ∧ cal !! d = None)
  ∧ ((∀ d, is_Some (ts_in !! d) → is_Some (cal !! d)) →
     (frame !! "CalTimestreams" = None →
      ∃ frame', Calibrate cal items frame = Ok frame')
     ∧ (is_Some (frame !! "CalTimestreams") →
        Calibrate cal items frame = Err RuntimeError)).
Proof.
  intros Hitems Hraw. unfold Calibrate, setitem. rewrite Hraw.
  assert (∀ d, d ∈ (items ts_in).*1 ↔ is_Some (ts_in !! d)) as Hdom.
  { intros d. destruct (ts_in !! d) as [ts|] eqn:Hd.
    - split; [by eexists|]. intros _. apply list_elem_of_fmap.
      exists (d, ts). split; [done|]. by apply (elem_of_items _ Hitems).
    - split; [|by intros []]. intros Hin.
      by apply (not_elem_of_items _ Hitems) in Hd. }
  split.
  - intros (d & [ts Hd] & Hc).
    destruct (calibrate_items cal (items ts_in) ∅) as [ts_out|e] eqn:Hloop.
    + apply (elem_of_items _ Hitems) in Hd.
      destruct (proj2 (calibrate_items_Ok _ _ _ Hloop
                         (items_NoDup _ Hitems _) d) ts Hd) as (c & Hc' & _).
      rewrite Hc in Hc'. discriminate Hc'.
    + destruct (calibrate_items_Err _ _ _ Hloop) as (d' & -> & Hin & Hd').
      exists d'. split; [done|]. split; [by apply Hdom|done].
  - intros Hall.
    destruct (calibrate_items_complete (items ts_in) ∅) as [out ->].
    { intros d Hd. by apply Hall, Hdom. }
    cbn [mbind result_bind]. split.
    + intros ->. by eexists.
    + by intros [obj ->].
Qed.
End CalibrationProperties.

(** *** Binning calibrated timestreams *)

Lemma shape_scale c a : shape (scale c a) = shape a.
Proof.
  unfold shape, scale. rewrite <- list_fmap_compose. apply list_fmap_ext.
  intros i row _. cbn. apply length_fmap.
Qed.

Lemma scale_zeros c n m : scale c (zeros n m) = zeros n m.
Proof.
  unfold scale, zeros. rewrite fmap_replicate. cbn beta.
  by rewrite fmap_replicate, Qcmult_0_l.
Qed.

Lemma scale_bump c h i j w :
  scale c (bump h i j w) = bump (scale c h) i j (w * c).
Proof.
  unfold scale, bump. apply list_fmap_alter, Forall_forall. intros row _.
  cbn beta. apply list_fmap_alter, Forall_forall. intros v _. cbn beta. ring.
Qed.

Lemma scale_bincount2 c ey ex yx w h :
  bincount2 ey ex (zip yx ((λ v, v * c) <$> w)) (scale c h)
  = scale c (bincount2 ey ex (zip yx w) h).
Proof.
  revert w h. induction yx as [|[y x] yx IH]; intros [|w0 w] h; try done.
  rewrite fmap_cons. cbn [zip_with bincount2].
  destruct (bin_index ey y), (bin_index ex x); rewrite <- ?scale_bump;
    apply IH.
Qed.

Lemma scale_add_row c (r1 r2 : list Qc) :
  zip_with Qcplus ((λ v, v * c) <$> r1) ((λ v, v * c) <$> r2)
  = (λ v, v * c) <$> zip_with Qcplus r1 r2.
Proof.
  revert r2. induction r1 as [|v r1 IH]; intros [|w r2]; [done..|].
  rewrite !fmap_cons. cbn [zip_with]. rewrite fmap_cons, IH. f_equal. ring.
Qed.

Lemma scale_add c (a b : array2) :
  zip_with (zip_with Qcplus) (scale c a) (scale c b)
  = scale c (zip_with (zip_with Qcplus) a b).
Proof.
  unfold scale. revert b. induction a as [|ra a IH]; intros [|rb b]; [done..|].
  rewrite !fmap_cons. cbn [zip_with]. by rewrite fmap_cons, IH, scale_add_row.
Qed.

Lemma get2_scale c a i j : get2 (scale c a) i j = get2 a i j * c.
Proof.
  unfold get2, cell, scale. rewrite list_lookup_fmap.
  destruct (a !! i) as [row|];
    cbn [fmap option_fmap option_map mbind option_bind];
    [|cbn [default from_option]; ring].
  rewrite list_lookup_fmap.
  destruct (row !! j) as [v|];
    cbn [fmap option_fmap option_map default from_option id]; [done|ring].
Qed.

Lemma sum_scale c (l : list Qc) : sum l * c = sum ((λ v, v * c) <$> l).
Proof.
  induction l as [|v l IH]; [cbn; ring|].
  rewrite fmap_cons, !sum_cons, <- IH. ring.
Qed.

(** The weighted histogram is linear in the weights. *)
Lemma histogram2d_scale c y x ey ex ts :
  histogram2d y x ey ex (Some ((λ v, v * c) <$> ts))
  = (h ← histogram2d y x ey ex (Some ts); Ok (scale c h)).
Proof.
  unfold histogram2d. destruct (decide (length x ≠ length y)); [done|].
  destruct (negb _); [done|]. rewrite length_fmap.
  destruct (decide (y = [])) as [->|Hy].
  { cbn [mbind result_bind zip_with bincount2]. by rewrite scale_zeros. }
  destruct (decide (length ts = length y)); [|done].
  cbn [mbind result_bind]. f_equal.
  by rewrite <- scale_bincount2, scale_zeros.
Qed.

Section CalibratedBinning.
Context (U : G3Units) (cos : Qc → Qc) (xoff yoff : gmap string Qc).
Context (cal : gmap string Qc).
Context (items : gmap string (list Qc) → list (string * list Qc)).

Local Abbreviation call := (__call__ U cos xoff yoff).
Local Abbreviation run := (Run U cos xoff yoff).
Local Abbreviation calibrated_binner :=
  (λ (c : Qc) (self : SingleMapBinner),
     {| det := det self; timestreams := "CalTimestreams";
        data := scale c (data self); hits := hits self |}).

(** The pointing reads the two boresight keys only. *)
Lemma offset_pointing_ext d (frame frame' : G3Frame) :
  frame' !! "BoresightDec" = frame !! "BoresightDec" →
  frame' !! "BoresightRa" = frame !! "BoresightRa" →
  offset_pointing U cos xoff yoff d frame'
  = offset_pointing U cos xoff yoff d frame.
Proof.
  intros Hdec Hra. unfold offset_pointing, asarray, getitem.
  by rewrite Hdec, Hra.
Qed.

Lemma increments_calibrated d c frame frame' :
  (∀ m, items m ≡ₚ map_to_list m) →
  cal !! d = Some c →
  frame !! "CalTimestreams" = None →
  Calibrate cal items frame = Ok frame' →
  increments U cos xoff yoff d "CalTimestreams" frame'
  = mbind (M:=result)
      (λ inc, Ok (fmap (M:=option)
                    (λ wh : array2 * array2, (scale c wh.1, wh.2)) inc))
      (increments U cos xoff yoff d "RawTimestreams" frame).
Proof.
  intros Hitems Hc Hnone Hcal. unfold Calibrate, setitem in Hcal.
  unfold increments.
  destruct (frame !! "RawTimestreams") as [[?|ts_in]|] eqn:Hraw.
  - discriminate Hcal.
  - destruct (calibrate_items cal (items ts_in) ∅) as [ts_out|] eqn:Hloop;
      [|discriminate Hcal].
    cbn [mbind result_bind] in Hcal. rewrite Hnone in Hcal.
    injection Hcal as <-.
    rewrite lookup_insert_eq.
    pose proof (calibrate_items_Ok _ _ _ _ Hloop (items_NoDup _ Hitems _) d)
      as [Hout Hin].
    destruct (ts_in !! d) as [ts|] eqn:Hd.
    + destruct (Hin ts) as (c' & Hc' & ->);
        [by apply (elem_of_items _ Hitems)|].
      rewrite Hc in Hc'. injection Hc' as <-.
      rewrite (offset_pointing_ext d frame)
        by (by apply lookup_insert_ne).
      destruct (offset_pointing U cos xoff yoff d frame) as [[y x]|];
        [|done].
      cbn [mbind result_bind]. rewrite histogram2d_scale.
      destruct (histogram2d y x _ _ (Some ts)); [|done].
      cbn [mbind result_bind].
      by destruct (histogram2d y x _ _ None).
    + rewrite Hout by (by apply (not_elem_of_items _ Hitems)).
      by rewrite lookup_empty.
  - injection Hcal as <-. by rewrite Hnone.
Qed.

Lemma accumulate_calibrated c self inc :
  accumulate (calibrated_binner c self)
    (fmap (M:=option) (λ wh : array2 * array2, (scale c wh.1, wh.2)) inc)
  = (self' ← accumulate self inc; Ok (calibrated_binner c self')).
Proof.
  destruct inc as [[w h]|]; [|done].
  unfold accumulate, iadd. cbn [fmap option_fmap option_map fst snd data hits].
  rewrite !shape_scale.
  destruct (decide (shape (data self) = shape w)); [|done].
  cbn [mbind result_bind].
  destruct (decide (shape (hits self) = shape h)); [|done].
  cbn [mbind result_bind det timestreams data hits]. by rewrite scale_add.
Qed.

Lemma call_calibrated c frame frame' self :
  (∀ m, items m ≡ₚ map_to_list m) →
  cal !! det self = Some c →
  timestreams self = "RawTimestreams" →
  frame !! "CalTimestreams" = None →
  Calibrate cal items frame = Ok frame' →
  call (calibrated_binner c self) frame'
  = (self' ← call self frame; Ok (calibrated_binner c self')).
Proof.
  intros Hitems Hc Hts Hnone Hcal. rewrite !call_increments.
  cbn [det timestreams]. rewrite Hts.
  rewrite (increments_calibrated _ c frame) by done.
  destruct (increments U cos xoff yoff (det self) "RawTimestreams" frame)
    as [inc|]; [|done].
  cbn [mbind result_bind]. apply accumulate_calibrated.
Qed.

Lemma run_calibrated c frames frames' self :
  (∀ m, items m ≡ₚ map_to_list m) →
  cal !! det self = Some c →
  timestreams self = "RawTimestreams" →
  Forall (λ frame : G3Frame, frame !! "CalTimestreams" = None) frames →
  Forall2 (λ frame frame', Calibrate cal items frame = Ok frame')
    frames frames' →
  run (calibrated_binner c self) frames'
  = (self' ← run self frames; Ok (calibrated_binner c self')).
Proof.
  intros Hitems Hc Hts Hnone Hcal. revert self Hc Hts Hnone.
  induction Hcal as [|frame frame' frames frames' Hcal _ IH];
    intros self Hc Hts Hnone; [done|].
  apply Forall_cons in Hnone as [Hnone Hnones]. cbn [Run].
  rewrite (call_calibrated c frame) by done.
  destruct (call self frame) as [self1|] eqn:Hcall; [|done].
  cbn [mbind result_bind].
  destruct (call_config _ _ _ _ _ _ _ Hcall) as (Hdet & Hts1 & _).
  apply IH; [by rewrite Hdet|by rewrite Hts1|done].
Qed.

End CalibratedBinning.

(** *** The displayed map *)

Lemma lengths_zip_with {A B C} (f : A → B → C) (a : list (list A))
    (b : list (list B)) :
  length <$> a = length <$> b →
  length <$> zip_with (zip_with f) a b = length <$> a.
Proof.
  revert b. induction a as [|ra a IH]; intros [|rb b] H; [done..|].
  rewrite !fmap_cons in H. injection H as Hr H.
  cbn [zip_with]. rewrite !fmap_cons, IH by done. f_equal.
  rewrite length_zip_with. lia.
Qed.

Section Display.
Context (U : G3Units) (cos : Qc → Qc) (xoff yoff : gmap string Qc).

End Display.

(** ** More properties on the small instance *)


Lemma pixels_partition_witness :
  ∃ i j, (i < ny U0)%nat ∧ (j < nx U0)%nat
         ∧ in_bin (dec_edges U0) i (dec0 U0 + lit 1 8)
         ∧ in_bin (ra_edges U0) j (ra0 U0 - lit 1 8).
Proof.
  apply (pixels_partition U0 (dec0 U0 + lit 1 8) (ra0 U0 - lit 1 8)).
  - vm_compute. lia.
  - vm_compute. lia.
  - vm_compute. reflexivity.
Defined.

Lemma call_keeps_configuration_and_counts_witness :
  det first0 = det0 ∧ timestreams first0 = default_timestreams
  ∧ shape (hits first0) = shape (hits binner0)
  ∧ get2 (hits binner0) 1 1 ≤ get2 (hits first0) 1 1.
Proof.
  destruct (call_keeps_configuration_and_counts U0 cos0 offsets0 offsets0
              binner0 scan0 first0) as (Hd & Ht & _ & Hs & Hcells).
  { vm_compute. reflexivity. }
  split; [exact Hd|]. split; [exact Ht|]. split; [exact Hs|].
  apply (Hcells 1%nat 1%nat); vm_compute; lia.
Defined.

Lemma hit_map_order_independent_witness :
  ∃ final',
    Run U0 cos0 offsets0 offsets0 (__init__ U0 det0 default_timestreams)
      [scan0; scan1; bare0; scan0] = Ok final'
    ∧ hits final' = hits final0.
Proof.
  apply (hit_map_order_independent U0 cos0 offsets0 offsets0 det0
           default_timestreams frames0).
  - apply perm_skip, perm_swap.
  - vm_compute. reflexivity.
Defined.

Lemma hit_maps_coadd_witness :
  ∃ binner1 binner2,
    Run U0 cos0 offsets0 offsets0 (__init__ U0 det0 default_timestreams)
      [scan0; bare0] = Ok binner1
    ∧ Run U0 cos0 offsets0 offsets0 (__init__ U0 det0 default_timestreams)
        [scan1; scan0] = Ok binner2
    ∧ hits final0 = zip_with (zip_with Qcplus) (hits binner1) (hits binner2).
Proof.
  apply (hit_maps_coadd U0 cos0 offsets0 offsets0 det0 default_timestreams
           [scan0; bare0] [scan1; scan0] final0).
  vm_compute. reflexivity.
Defined.

Lemma malformed_frame_raises_witness :
  __call__ U0 cos0 offsets0 offsets0 binner0 nodec0
  = Err (KeyError "BoresightDec")
  ∧ Run U0 cos0 offsets0 offsets0 binner0 ([] ++ nodec0 :: [scan0])
    = Err (KeyError "BoresightDec")
  ∧ __call__ U0 cos0 offsets0 offsets0 final0 empty0 = Ok final0.
Proof.
  destruct (malformed_frame_raises U0 cos0 offsets0 offsets0 binner0 nodec0
              {[ det0 := signal0 ]} signal0 (lit 1 8) (lit 1 8))
    as (Hdec & _ & _ & _ & Hrun & _); try reflexivity.
  destruct (malformed_frame_raises U0 cos0 offsets0 offsets0 final0 empty0
              {[ det0 := signal0 ]} signal0 (lit 1 8) (lit 1 8))
    as (_ & _ & _ & _ & _ & Hempty); try reflexivity.
  assert (__call__ U0 cos0 offsets0 offsets0 binner0 nodec0
          = Err (KeyError "BoresightDec")) as Hcall.
  { apply Hdec. reflexivity. }
  split; [exact Hcall|]. split.
  - apply (Hrun binner0 [] [scan0]); [reflexivity|exact Hcall].
  - apply Hempty; vm_compute; reflexivity.
Defined.


Lemma calibrate_output_witness :
  match raw0 !! "RawTimestreams" with
  | None => calibrated0 = raw0
  | Some raw =>
      ∃ ts_in ts_out,
        raw = G3TimestreamMap ts_in
        ∧ calibrated0 !! "CalTimestreams" = Some (G3TimestreamMap ts_out)
        ∧ (∀ key, key ≠ "CalTimestreams" → calibrated0 !! key = raw0 !! key)
        ∧ ∀ d, match ts_in !! d with
               | None => ts_out !! d = None
               | Some ts =>
                   ∃ c, cal0 !! d = Some c
                        ∧ ts_out !! d = Some ((λ v, v * c) <$> ts)
               end
  end.
Proof.
  apply (calibrate_output cal0 map_to_list raw0 calibrated0).
  - intros m. reflexivity.
  - reflexivity.
  - vm_compute. reflexivity.
Defined.

Lemma calibrate_needs_every_constant_witness :
  ∃ d, Calibrate cal0 map_to_list raw1 = Err (KeyError d)
       ∧ is_Some (raw_map1 !! d) ∧ cal0 !! d = None.
Proof.
  apply (calibrate_needs_every_constant cal0 map_to_list raw1 raw_map1).
  - intros m. reflexivity.
  - reflexivity.
  - exists "2019.01a". split; [|reflexivity]. eexists. reflexivity.
Defined.



(** ** The order of ingestion in floating point *)

(** *** The rounding of binary64 *)

Lemma Z2Qc_pow2_pos (p : Z) : (0 ≤ p)%Z → 0 < Qc_of_Z (2 ^ p).
Proof.
  intros Hp. rewrite <- Z2Qc_inj_0. apply (proj1 (Z2Qc_inj_lt _ _)).
  by apply Z.pow_pos_nonneg.
Qed.

Lemma pow2_pos (e : Z) : 0 < Binary64.pow2 e.
Proof.
  unfold Binary64.pow2. destruct (decide (0 ≤ e)%Z).
  - by apply Z2Qc_pow2_pos.
  - apply Qcinv_pos, Z2Qc_pow2_pos. lia.
Qed.

Lemma pow2_neq_0 (e : Z) : Binary64.pow2 e ≠ 0.
Proof.
  intros H. pose proof (pow2_pos e) as Hp. rewrite H in Hp.
  by apply Qclt_not_eq in Hp.
Qed.

(** [2^(p - q)] as a quotient of two powers *)
Lemma pow2_frac (p q : Z) :
  (0 ≤ p)%Z → (0 ≤ q)%Z →
  Binary64.pow2 (p - q) = Qc_of_Z (2 ^ p) / Qc_of_Z (2 ^ q).
Proof.
  intros Hp Hq. unfold Binary64.pow2.
  pose proof (Z2Qc_pow2_pos q Hq) as Hq0. apply Qclt_not_eq, not_eq_sym in Hq0.
  destruct (decide (0 ≤ p - q)%Z).
  - replace p with ((p - q) + q)%Z at 2 by lia.
    rewrite Z.pow_add_r, Z2Qc_inj_mul by lia. by field.
  - pose proof (Z2Qc_pow2_pos (- (p - q)) ltac:(lia)) as Hr0.
    apply Qclt_not_eq, not_eq_sym in Hr0.
    pose proof (Z2Qc_pow2_pos p Hp) as Hp0.
    apply Qclt_not_eq, not_eq_sym in Hp0.
    replace q with (- (p - q) + p)%Z at 2 by lia.
    rewrite Z.pow_add_r, Z2Qc_inj_mul by lia. by field.
Qed.

Lemma pow2_nonneg (p : Z) : (0 ≤ p)%Z → Binary64.pow2 p = Qc_of_Z (2 ^ p).
Proof. intros Hp. unfold Binary64.pow2. by rewrite decide_True. Qed.

Lemma pow2_add (a b : Z) :
  Binary64.pow2 (a + b) = Binary64.pow2 a * Binary64.pow2 b.
Proof.
  replace a with (Z.max a 0 - Z.max (- a) 0)%Z at 2 by lia.
  replace b with (Z.max b 0 - Z.max (- b) 0)%Z at 2 by lia.
  replace (a + b)%Z
    with ((Z.max a 0 + Z.max b 0) - (Z.max (- a) 0 + Z.max (- b) 0))%Z by lia.
  rewrite !pow2_frac by lia.
  rewrite !Z.pow_add_r, !Z2Qc_inj_mul by lia.
  pose proof (Z2Qc_pow2_pos (Z.max (- a) 0) ltac:(lia)) as Ha.
  pose proof (Z2Qc_pow2_pos (Z.max (- b) 0) ltac:(lia)) as Hb.
  apply Qclt_not_eq, not_eq_sym in Ha. apply Qclt_not_eq, not_eq_sym in Hb.
  by field.
Qed.

Lemma pow2_le_mono (a b : Z) :
  (a ≤ b)%Z → Binary64.pow2 a ≤ Binary64.pow2 b.
Proof.
  intros Hab. replace b with (a + (b - a))%Z by lia. rewrite pow2_add.
  rewrite <- (Qcmult_1_r (Binary64.pow2 a)) at 1.
  apply Qcmult_le_mono_nonneg_l; [apply Qclt_le_weak, pow2_pos|].
  rewrite pow2_nonneg by lia. rewrite <- Z2Qc_inj_1.
  apply (proj1 (Z2Qc_inj_le _ _)).
  pose proof (Z.pow_pos_nonneg 2 (b - a) ltac:(lia) ltac:(lia)). lia.
Qed.

(** A rational is its numerator over its denominator. *)
Lemma Qc_num_den (x : Qc) :
  x = Qc_of_Z (Qnum x) / Qc_of_Z (Z.pos (Qden x)).
Proof.
  apply Qc_is_canon. destruct x as [[n d] Hc].
  unfold Qcdiv, Qcmult, Qcinv, Q2Qc, Qc_of_Z. cbn [this Qnum Qden].
  rewrite !Qred_correct. rewrite (Qmake_Qdiv n d). reflexivity.
Qed.

Lemma Qc_frac_le (a b c d : Z) :
  (0 < b)%Z → (0 < d)%Z → (a * d ≤ c * b)%Z →
  Qc_of_Z a / Qc_of_Z b ≤ Qc_of_Z c / Qc_of_Z d.
Proof.
  intros Hb Hd H.
  assert (0 < Qc_of_Z b) as Hb'.
  { rewrite <- Z2Qc_inj_0. by apply (proj1 (Z2Qc_inj_lt _ _)). }
  assert (0 < Qc_of_Z d) as Hd'.
  { rewrite <- Z2Qc_inj_0. by apply (proj1 (Z2Qc_inj_lt _ _)). }
  apply (Qcmult_le_mono_pos_r _ _ (Qc_of_Z b * Qc_of_Z d));
    [by apply Qcmult_pos_pos|].
  replace (Qc_of_Z a / Qc_of_Z b * (Qc_of_Z b * Qc_of_Z d))
    with (Qc_of_Z a * Qc_of_Z d)
    by (field; by apply Qclt_not_eq, not_eq_sym in Hb').
  replace (Qc_of_Z c / Qc_of_Z d * (Qc_of_Z b * Qc_of_Z d))
    with (Qc_of_Z c * Qc_of_Z b)
    by (field; by apply Qclt_not_eq, not_eq_sym in Hd').
  rewrite <- !Z2Qc_inj_mul. by apply (proj1 (Z2Qc_inj_le _ _)).
Qed.

Lemma Qc_frac_lt (a b c d : Z) :
  (0 < b)%Z → (0 < d)%Z → (a * d < c * b)%Z →
  Qc_of_Z a / Qc_of_Z b < Qc_of_Z c / Qc_of_Z d.
Proof.
  intros Hb Hd H.
  assert (0 < Qc_of_Z b) as Hb'.
  { rewrite <- Z2Qc_inj_0. by apply (proj1 (Z2Qc_inj_lt _ _)). }
  assert (0 < Qc_of_Z d) as Hd'.
  { rewrite <- Z2Qc_inj_0. by apply (proj1 (Z2Qc_inj_lt _ _)). }
  apply (Qcmult_lt_mono_pos_r _ _ (Qc_of_Z b * Qc_of_Z d));
    [by apply Qcmult_pos_pos|].
  replace (Qc_of_Z a / Qc_of_Z b * (Qc_of_Z b * Qc_of_Z d))
    with (Qc_of_Z a * Qc_of_Z d)
    by (field; by apply Qclt_not_eq, not_eq_sym in Hb').
  replace (Qc_of_Z c / Qc_of_Z d * (Qc_of_Z b * Qc_of_Z d))
    with (Qc_of_Z c * Qc_of_Z b)
    by (field; by apply Qclt_not_eq, not_eq_sym in Hd').
  rewrite <- !Z2Qc_inj_mul. by apply (proj1 (Z2Qc_inj_lt _ _)).
Qed.

(** [⌊log2 x⌋] brackets [x]. *)
Lemma ilog2_spec (x : Qc) :
  0 < x →
  Binary64.pow2 (Binary64.ilog2 x) ≤ x
  ∧ x < Binary64.pow2 (Binary64.ilog2 x + 1).
Proof.
  intros Hx. unfold Binary64.ilog2. cbv zeta.
  set (n := Qnum x). set (d := Z.pos (Qden x)).
  assert (0 < n)%Z as Hn.
  { unfold Qclt, Qlt in Hx. simpl in Hx. unfold n. lia. }
  assert (0 < d)%Z as Hd by (unfold d; lia).
  pose proof (Z.log2_spec n Hn) as [Hn1 Hn2].
  pose proof (Z.log2_spec d Hd) as [Hd1 Hd2].
  pose proof (Z.log2_nonneg n) as Hln. pose proof (Z.log2_nonneg d) as Hld.
  pose proof (Z.pow_pos_nonneg 2 (Z.log2 d) ltac:(lia) Hld) as Hpd.
  pose proof (Z.pow_pos_nonneg 2 (Z.log2 n) ltac:(lia) Hln) as Hpn.
  destruct (decide (Binary64.pow2 (Z.log2 n - Z.log2 d) ≤ x)) as [Hle|Hgt].
  - split; [done|].
    replace (Z.log2 n - Z.log2 d + 1)%Z with (Z.succ (Z.log2 n) - Z.log2 d)%Z
      by lia.
    rewrite pow2_frac by lia. rewrite (Qc_num_den x) at 1. fold n d.
    apply Qc_frac_lt; [done|lia|]. nia.
  - apply Qcnot_le_lt in Hgt. split.
    + replace (Z.log2 n - Z.log2 d - 1)%Z with (Z.log2 n - Z.succ (Z.log2 d))%Z
        by lia.
      rewrite pow2_frac by lia. rewrite (Qc_num_den x) at 1. fold n d.
      apply Qc_frac_le; [lia|done|]. nia.
    + by replace (Z.log2 n - Z.log2 d - 1 + 1)%Z with (Z.log2 n - Z.log2 d)%Z
        by lia.
Qed.

Lemma ilog2_unique (x : Qc) (l : Z) :
  0 < x → Binary64.pow2 l ≤ x → x < Binary64.pow2 (l + 1) →
  Binary64.ilog2 x = l.
Proof.
  intros Hx Hlo Hhi. destruct (ilog2_spec x Hx) as [Hlo' Hhi'].
  destruct (Z.lt_trichotomy (Binary64.ilog2 x) l) as [Hlt|[Heq|Hlt]]; [|done|].
  - exfalso. apply (Qclt_not_le _ _ Hhi'). etrans; [|exact Hlo].
    apply pow2_le_mono. lia.
  - exfalso. apply (Qclt_not_le _ _ Hhi). etrans; [|exact Hlo'].
    apply pow2_le_mono. lia.
Qed.

Lemma int_Z (k : Z) : int (Qc_of_Z k) = k.
Proof.
  unfold int, Qc_of_Z. cbn [this Qnum Qden inject_Z]. apply Z.quot_1_r.
Qed.

(** An integer is its own nearest integer. *)
Lemma rint_Z (k : Z) : Binary64.rint (Qc_of_Z k) = k.
Proof.
  unfold Binary64.rint. cbv zeta. rewrite int_Z.
  replace (Qc_of_Z k - Qc_of_Z k) with 0 by ring.
  by rewrite decide_True by reflexivity.
Qed.

Lemma rint_bounds (y : Qc) (N : Z) :
  0 ≤ y → y < Qc_of_Z N → (0 ≤ Binary64.rint y ≤ N)%Z.
Proof.
  intros Hy HN. destruct (int_floor y Hy) as [Hlo _].
  pose proof (int_nonneg y Hy) as Hf.
  assert (int y < N)%Z as Hlt.
  { apply Z2Qc_inj_lt. by apply (Qcle_lt_trans _ y). }
  unfold Binary64.rint. cbv zeta.
  repeat case_decide; try destruct (Z.even (int y)); lia.
Qed.

(** A positive number that is a whole multiple of its last place is a
    float. *)
Lemma round_pos_fix (v : Qc) (M : Z) :
  v / Binary64.pow2 (Z.max (Binary64.ilog2 v - 52) (-1074)) = Qc_of_Z M →
  Binary64.round_pos v = v.
Proof.
  intros HM. unfold Binary64.round_pos. cbv zeta. rewrite HM, rint_Z, <- HM.
  field. apply pow2_neq_0.
Qed.

Lemma round_pos_idem (x : Qc) :
  0 < x →
  Binary64.round_pos x = 0
  ∨ 0 < Binary64.round_pos x
    ∧ Binary64.round_pos (Binary64.round_pos x) = Binary64.round_pos x.
Proof.
  intros Hx. unfold Binary64.round_pos at 1 2 4. cbv zeta.
  set (L := Binary64.ilog2 x). set (e := Z.max (L - 52) (-1074)).
  set (y := x / Binary64.pow2 e). set (m := Binary64.rint y).
  pose proof (pow2_pos e) as He. pose proof (pow2_neq_0 e) as He'.
  destruct (ilog2_spec x Hx) as [_ Hhi]. fold L in Hhi.
  assert (x = y * Binary64.pow2 e) as Hxy by (unfold y; by field).
  assert (0 ≤ y) as Hy0.
  { apply Qclt_le_weak. unfold y. apply Qcmult_pos_pos; [done|].
    by apply Qcinv_pos. }
  assert (y < Qc_of_Z (2 ^ 53)) as Hy.
  { apply (Qclt_le_trans _ (Binary64.pow2 (L + 1 - e))).
    - apply (Qcmult_lt_mono_pos_r _ _ (Binary64.pow2 e)); [done|].
      rewrite <- Hxy, <- pow2_add.
      by replace (L + 1 - e + e)%Z with (L + 1)%Z by lia.
    - rewrite <- (pow2_nonneg 53) by lia. apply pow2_le_mono. lia. }
  pose proof (rint_bounds y _ Hy0 Hy) as Hm. fold m in Hm.
  destruct (decide (m = 0)%Z) as [Hm0|Hm0].
  { left. rewrite Hm0, Z2Qc_inj_0. ring. }
  right.
  assert (0 < Qc_of_Z m) as Hmpos.
  { rewrite <- Z2Qc_inj_0. apply (proj1 (Z2Qc_inj_lt _ _)). lia. }
  set (v := Qc_of_Z m * Binary64.pow2 e).
  assert (0 < v) as Hv by (by apply Qcmult_pos_pos).
  split; [done|].
  pose proof (Z.log2_spec m ltac:(lia)) as [Hk1 Hk2].
  pose proof (Z.log2_nonneg m) as Hk0.
  set (k := Z.log2 m) in *.
  assert (k ≤ 53)%Z as Hk53.
  { destruct (decide (k ≤ 53)%Z) as [|Hn]; [done|]. exfalso.
    pose proof (Z.pow_le_mono_r 2 54 k ltac:(lia) ltac:(lia)). lia. }
  assert (Binary64.ilog2 v = (k + e)%Z) as Hlog.
  { apply ilog2_unique; [done|..].
    - rewrite pow2_add, pow2_nonneg by lia. unfold v.
      apply Qcmult_le_mono_nonneg_r; [by apply Qclt_le_weak|].
      by apply (proj1 (Z2Qc_inj_le _ _)).
    - replace (k + e + 1)%Z with (Z.succ k + e)%Z by lia.
      rewrite pow2_add, pow2_nonneg by lia. unfold v.
      apply Qcmult_lt_mono_pos_r; [done|].
      by apply (proj1 (Z2Qc_inj_lt _ _)). }
  destruct (decide (k ≤ 52)%Z) as [Hk|Hk].
  - apply (round_pos_fix v (m * 2 ^ (e - Z.max (k + e - 52) (-1074)))).
    rewrite Hlog. set (e' := Z.max (k + e - 52) (-1074)).
    assert (e' ≤ e)%Z as He'e by lia.
    rewrite Z2Qc_inj_mul, <- pow2_nonneg by lia. unfold v.
    replace e with ((e - e') + e')%Z at 1 by lia. rewrite pow2_add.
    field. apply pow2_neq_0.
  - assert (m = 2 ^ 53)%Z as Hm53.
    { assert (k = 53)%Z as Hk' by lia. rewrite Hk' in Hk1. lia. }
    apply (round_pos_fix v (2 ^ 52)). rewrite Hlog.
    replace (Z.max (k + e - 52) (-1074)) with (e + 1)%Z by lia.
    unfold v. rewrite Hm53, pow2_add, (pow2_nonneg 1) by lia.
    replace (2 ^ 53)%Z with (2 ^ 52 * 2 ^ 1)%Z by (by rewrite <- Z.pow_add_r).
    rewrite Z2Qc_inj_mul. field. split; [|done].
    pose proof (Z2Qc_pow2_pos 1 ltac:(lia)) as H1.
    by apply Qclt_not_eq, not_eq_sym in H1.
Qed.

Lemma round_pos_nonneg (x : Qc) : 0 < x → 0 ≤ Binary64.round_pos x.
Proof.
  intros Hx. destruct (round_pos_idem x Hx) as [->|[H _]]; [done|].
  by apply Qclt_le_weak.
Qed.

Lemma Qcopp_pos (q : Qc) : q < 0 → 0 < - q.
Proof.
  intros H. apply (Qcplus_lt_mono_l _ _ (- q)) in H.
  by replace (- q + q) with 0 in H by ring;
    replace (- q + 0) with (- q) in H by ring.
Qed.

Lemma Qcopp_neg (q : Qc) : 0 < q → - q < 0.
Proof.
  intros H. apply (Qcplus_lt_mono_l _ _ (- q)) in H.
  by replace (- q + q) with 0 in H by ring;
    replace (- q + 0) with (- q) in H by ring.
Qed.

(** Rounding a float gives the float. *)
Lemma round64_idem (q : Qc) :
  Binary64.round64 (Binary64.round64 q) = Binary64.round64 q.
Proof.
  assert (Binary64.round64 0 = 0) as H0 by reflexivity.
  unfold Binary64.round64 at 2 3.
  destruct (decide (0 < q)) as [Hpos|Hnpos].
  - destruct (round_pos_idem q Hpos) as [->|[Hv Hfix]]; [done|].
    unfold Binary64.round64. by rewrite decide_True.
  - destruct (decide (q < 0)) as [Hneg|Hnneg]; [|done].
    destruct (round_pos_idem (- q) (Qcopp_pos q Hneg)) as [->|[Hv Hfix]].
    { by replace (- 0) with 0 by ring. }
    unfold Binary64.round64.
    rewrite decide_False by (apply Qcle_not_lt, Qclt_le_weak, Qcopp_neg, Hv).
    rewrite decide_True by (by apply Qcopp_neg).
    by rewrite Qcopp_involutive, Hfix.
Qed.

Lemma round64_0 : Binary64.round64 0 = 0.
Proof. reflexivity. Qed.

(** *** The binner in floating point *)

Section Fixed.
Context (rnd : Qc → Qc).
Hypothesis rnd_idem : ∀ q, rnd (rnd q) = rnd q.
Hypothesis rnd_0 : rnd 0 = 0.

Local Abbreviation fixed := (Forall (Forall (λ v : Qc, rnd v = v))).

Lemma fixed_zeros n m : fixed (zeros n m).
Proof. unfold zeros. by do 2 apply Forall_replicate. Qed.

Lemma fixed_bump h i j w : fixed h → fixed (Binary64.bump rnd h i j w).
Proof.
  intros Hh. unfold Binary64.bump. apply Forall_alter; [done|].
  intros row _ Hrow. apply Forall_alter; [done|]. intros v _ _.
  apply rnd_idem.
Qed.

Lemma fixed_bincount2 ey ex l h :
  fixed h → fixed (Binary64.bincount2 rnd ey ex l h).
Proof.
  revert h. induction l as [|[[y x] w] l IH]; intros h Hh; [done|].
  cbn [Binary64.bincount2]. apply IH.
  destruct (bin_index ey y), (bin_index ex x); try done.
  by apply fixed_bump.
Qed.

Lemma fixed_counts2 ey ex yx n m : fixed (Binary64.counts2 rnd ey ex yx n m).
Proof.
  unfold Binary64.counts2. apply Forall_fmap, Forall_forall. intros row _.
  apply Forall_fmap, Forall_forall. intros v _. apply rnd_idem.
Qed.

(** Adding to zeros leaves a float as it is. *)
Lemma iadd_zeros_l h n m :
  fixed h → shape h = replicate n m →
  Binary64.iadd rnd (zeros n m) h = Ok h.
Proof.
  intros Hh Hs. unfold Binary64.iadd.
  rewrite decide_True by (by rewrite shape_zeros). f_equal.
  unfold zeros. clear rnd_idem. revert n Hs.
  induction Hh as [|row h Hrow _ IH]; intros [|n] Hs; simplify_eq/=; [done..|].
  f_equal; [|by apply IH]. clear IH H0.
  induction Hrow as [|v row Hv _ IH]; [done|]. cbn [length replicate zip_with].
  f_equal; [|done]. by rewrite Qcplus_0_l.
Qed.
End Fixed.

Lemma shape_bump_rounded rnd h i j w :
  shape (Binary64.bump rnd h i j w) = shape h.
Proof.
  unfold shape, Binary64.bump. apply list_eq. intros k.
  rewrite !list_lookup_fmap.
  destruct (decide (i = k)) as [->|].
  - rewrite list_lookup_alter_eq. destruct (h !! k); simpl; [|done].
    by rewrite length_alter.
  - by rewrite list_lookup_alter_ne.
Qed.

Lemma shape_bincount2_rounded rnd ey ex l h :
  shape (Binary64.bincount2 rnd ey ex l h) = shape h.
Proof.
  revert h. induction l as [|[[y x] w] l IH]; intros h; [done|].
  cbn [Binary64.bincount2]. rewrite IH.
  destruct (bin_index ey y), (bin_index ex x); try done.
  apply shape_bump_rounded.
Qed.

Lemma shape_counts2 rnd ey ex yx n m :
  shape (Binary64.counts2 rnd ey ex yx n m) = replicate n m.
Proof.
  unfold Binary64.counts2, shape. rewrite <- list_fmap_compose.
  rewrite <- (shape_zeros n m), <- (shape_bincount2 ey ex
    (zip yx (replicate (length yx) 1)) (zeros n m)).
  apply list_fmap_ext. intros i row _. cbn. apply length_fmap.
Qed.

(** A float sum does not depend on the order of its two operands. *)
Lemma iadd_comm rnd a b : Binary64.iadd rnd a b = Binary64.iadd rnd b a.
Proof.
  unfold Binary64.iadd.
  destruct (decide (shape a = shape b)) as [Hs|Hs].
  - rewrite decide_True by done. f_equal. clear Hs. revert b.
    induction a as [|ra a IH]; intros [|rb b]; [done..|].
    cbn [zip_with]. f_equal; [|apply IH]. clear. revert rb.
    induction ra as [|v ra IH]; intros [|w rb]; [done..|].
    cbn [zip_with]. f_equal; [|apply IH]. by rewrite Qcplus_comm.
  - by rewrite decide_False by (by intros ?).
Qed.

Section RoundedBinner.
Context (rnd : Qc → Qc) (U : G3Units) (cos : Qc → Qc).
Context (xoff yoff : gmap string Qc) (ny nx : nat).
Context (dec_edges ra_edges : list Qc).

Local Abbreviation call :=
  (Binary64.__call__ rnd U cos xoff yoff dec_edges ra_edges).
Local Abbreviation run :=
  (Binary64.Run rnd U cos xoff yoff dec_edges ra_edges).
Local Abbreviation increments_of :=
  (Binary64.increments rnd U cos xoff yoff dec_edges ra_edges).
Local Abbreviation accumulate := (Binary64.accumulate rnd).
Local Abbreviation fixed := (Forall (Forall (λ v : Qc, rnd v = v))).

Lemma histogram2d_rounded_Ok y x ey ex weights h :
  (∀ q, rnd (rnd q) = rnd q) → rnd 0 = 0 →
  Binary64.histogram2d rnd y x ey ex weights = Ok h →
  shape h = replicate (pred (length ey)) (pred (length ex)) ∧ fixed h.
Proof.
  intros Hidem H0. unfold Binary64.histogram2d.
  destruct (decide (length x ≠ length y)); [done|].
  destruct (negb _); [done|]. cbv zeta. destruct weights as [w|].
  - destruct (decide (y = [])).
    { intros [= <-]. split; [apply shape_zeros|by apply fixed_zeros]. }
    destruct (decide (length w = length y)); [|done]. intros [= <-].
    split.
    + by rewrite shape_bincount2_rounded, shape_zeros.
    + by apply fixed_bincount2, fixed_zeros.
  - intros [= <-]. split; [apply shape_counts2|by apply fixed_counts2].
Qed.

Lemma histogram2d_rounded_counts y x ey ex w h :
  Binary64.histogram2d rnd y x ey ex (Some w) = Ok h →
  ∃ h', Binary64.histogram2d rnd y x ey ex None = Ok h'.
Proof.
  unfold Binary64.histogram2d.
  destruct (decide (length x ≠ length y)); [done|].
  destruct (negb _); [done|]. by eexists.
Qed.

(** The call adds the increments of the frame. *)
Lemma call_increments_rounded self frame :
  call self frame
  = (inc ← increments_of (det self) (timestreams self) frame;
     accumulate self inc).
Proof.
  unfold Binary64.__call__, Binary64.increments.
  destruct (frame !! timestreams self) as [[?|tsmap]|]; [done| |done].
  destruct (tsmap !! det self) as [ts|]; [|done].
  destruct (Binary64.offset_pointing _ _ _ _ _ _ _) as [[y x]|e]; [|done].
  cbn [mbind result_bind].
  destruct (Binary64.histogram2d rnd y x _ _ (Some ts)) as [hw|e] eqn:Hw;
    cbn [mbind result_bind]; [|done].
  destruct (histogram2d_rounded_counts _ _ _ _ _ _ Hw) as [h ->].
  cbn [mbind result_bind Binary64.accumulate].
  by destruct (Binary64.iadd rnd (data self) hw).
Qed.

Lemma increments_rounded_Some d ts frame weighted counts :
  (∀ q, rnd (rnd q) = rnd q) → rnd 0 = 0 →
  length dec_edges = S ny → length ra_edges = S nx →
  increments_of d ts frame = Ok (Some (weighted, counts)) →
  (shape weighted = replicate ny nx ∧ fixed weighted)
  ∧ (shape counts = replicate ny nx ∧ fixed counts).
Proof.
  intros Hidem H0 Hny Hnx. unfold Binary64.increments.
  destruct (frame !! ts) as [[?|tsmap]|]; [done| |done].
  destruct (tsmap !! d) as [w|]; [|done].
  destruct (Binary64.offset_pointing _ _ _ _ _ _ _) as [[y x]|e]; [|done].
  cbn [mbind result_bind].
  destruct (Binary64.histogram2d rnd y x _ _ (Some w)) as [hw|] eqn:Hw;
    cbn [mbind result_bind]; [|done].
  destruct (Binary64.histogram2d rnd y x _ _ None) as [h|] eqn:Hh;
    cbn [mbind result_bind]; [|done].
  intros [= <- <-].
  apply histogram2d_rounded_Ok in Hw, Hh; [|done..].
  rewrite Hny, Hnx in Hw, Hh. done.
Qed.

(** From the zeroed grids, the first frame leaves its own histograms. *)
Lemma accumulate_fresh d ts weighted counts :
  shape weighted = replicate ny nx → fixed weighted →
  shape counts = replicate ny nx → fixed counts →
  accumulate (Binary64.__init__ ny nx d ts) (Some (weighted, counts))
  = Ok {| det := d; timestreams := ts; data := weighted; hits := counts |}.
Proof.
  intros Hsw Hw Hsc Hc. unfold Binary64.accumulate, Binary64.__init__.
  cbn [data hits det timestreams].
  rewrite (iadd_zeros_l rnd weighted), (iadd_zeros_l rnd counts) by done.
  done.
Qed.

Lemma call_fresh d ts frame :
  call (Binary64.__init__ ny nx d ts) frame
  = (inc ← increments_of d ts frame;
     accumulate (Binary64.__init__ ny nx d ts) inc).
Proof. apply call_increments_rounded. Qed.

Lemma call_loaded d ts w c frame :
  call {| det := d; timestreams := ts; data := w; hits := c |} frame
  = (inc ← increments_of d ts frame;
     accumulate {| det := d; timestreams := ts; data := w; hits := c |} inc).
Proof. apply call_increments_rounded. Qed.

(** C5.  In floating point, for every rounding that leaves floats and zero
    as they are, and every grid of [ny] by [nx] bins with its [ny + 1] and
    [nx + 1] edges: ingesting two frames [A] then [B] into a freshly
    constructed binner, whose grids are zero, ends in the same binner,
    [data] and [hits] grids included, as ingesting [B] then [A]; one order
    raises an exception exactly when the other does. *)
Theorem ingest_order_independent d ts A B final :
  (∀ q, rnd (rnd q) = rnd q) → rnd 0 = 0 →
  length dec_edges = S ny → length ra_edges = S nx →
  Binary64.Run rnd U cos xoff yoff dec_edges ra_edges
    (Binary64.__init__ ny nx d ts) [A; B] = Ok final
  ↔ Binary64.Run rnd U cos xoff yoff dec_edges ra_edges
      (Binary64.__init__ ny nx d ts) [B; A] = Ok final.
Proof.
  intros Hidem H0 Hny Hnx. cbn [Binary64.Run]. rewrite !call_fresh.
  destruct (increments_of d ts A) as [a|eA] eqn:HA;
    destruct (increments_of d ts B) as [b|eB] eqn:HB;
    cbn [mbind result_bind];
    [|split; [|discriminate]|split; [discriminate|]|split; discriminate].
  - destruct a as [[wA cA]|], b as [[wB cB]|].
    + destruct (increments_rounded_Some _ _ _ _ _ Hidem H0 Hny Hnx HA)
        as [[HswA HwA] [HscA HcA]].
      destruct (increments_rounded_Some _ _ _ _ _ Hidem H0 Hny Hnx HB)
        as [[HswB HwB] [HscB HcB]].
      rewrite !accumulate_fresh by done. cbn [mbind result_bind].
      rewrite !call_loaded, HA, HB.
      cbn [mbind result_bind Binary64.accumulate data hits det timestreams].
      by rewrite (iadd_comm rnd wA wB), (iadd_comm rnd cA cB).
    + destruct (increments_rounded_Some _ _ _ _ _ Hidem H0 Hny Hnx HA)
        as [[HswA HwA] [HscA HcA]].
      rewrite accumulate_fresh by done.
      cbn [mbind result_bind Binary64.accumulate].
      rewrite call_loaded, call_fresh, HA, HB. cbn [mbind result_bind].
      by rewrite accumulate_fresh.
    + destruct (increments_rounded_Some _ _ _ _ _ Hidem H0 Hny Hnx HB)
        as [[HswB HwB] [HscB HcB]].
      rewrite accumulate_fresh by done.
      cbn [mbind result_bind Binary64.accumulate].
      rewrite call_loaded, call_fresh, HA, HB. cbn [mbind result_bind].
      by rewrite accumulate_fresh.
    + cbn [Binary64.accumulate mbind result_bind].
      by rewrite !call_fresh, HA, HB.
  - intros H. destruct a as [[wA cA]|].
    + destruct (increments_rounded_Some _ _ _ _ _ Hidem H0 Hny Hnx HA)
        as [[HswA HwA] [HscA HcA]].
      rewrite accumulate_fresh in H by done.
      cbn [mbind result_bind] in H. rewrite call_loaded, HB in H.
      discriminate H.
    + cbn [Binary64.accumulate mbind result_bind] in H.
      rewrite call_fresh, HB in H. discriminate H.
  - intros H. destruct b as [[wB cB]|].
    + destruct (increments_rounded_Some _ _ _ _ _ Hidem H0 Hny Hnx HB)
        as [[HswB HwB] [HscB HcB]].
      rewrite accumulate_fresh in H by done.
      cbn [mbind result_bind] in H. rewrite call_loaded, HA in H.
      discriminate H.
    + cbn [Binary64.accumulate mbind result_bind] in H.
      rewrite call_fresh, HA in H. discriminate H.
Qed.
End RoundedBinner.

Lemma ingest_order_independent_witness :
  Binary64.Run Binary64.round64 U0 cos0 zero_offsets zero_offsets
    float_edges0 float_edges0
    (Binary64.__init__ 2 2 det0 default_timestreams) [light0; heavy0]
  = Ok pair0.
Proof.
  apply (proj1 (ingest_order_independent Binary64.round64 U0 cos0
                  zero_offsets zero_offsets 2 2 float_edges0 float_edges0
                  det0 default_timestreams heavy0 light0 pair0
                  round64_idem round64_0 eq_refl eq_refl)).
  vm_compute. reflexivity.
Defined.

(** C5, as stated, fails in binary64: from the state that holds one sample
    of [2^53], the sample [1] and then the sample [-2^53] leave the signal
    sum [0] in the pixel, and in the other order they leave [1]. *)
Lemma ingest_order_depends_on_state :
  ∃ after_AB after_BA,
    Binary64.Run Binary64.round64 U0 cos0 zero_offsets zero_offsets
      float_edges0 float_edges0 loaded0 [light0; minus0] = Ok after_AB
    ∧ Binary64.Run Binary64.round64 U0 cos0 zero_offsets zero_offsets
        float_edges0 float_edges0 loaded0 [minus0; light0] = Ok after_BA
    ∧ get2 (data loaded0) 1 1 = big0
    ∧ get2 (data after_AB) 1 1 = 0
    ∧ get2 (data after_BA) 1 1 = 1
    ∧ hits after_AB = hits after_BA.
Proof.
  eexists _, _. split; [vm_compute; reflexivity|].
  split; [vm_compute; reflexivity|].
  repeat split; apply Qc_is_canon; vm_compute; reflexivity.
Qed.
